(** * Schemathesis: the unit-testing phase of the engine and its checks

  A shallow embedding of [schemathesis/runner/phases/unit/__init__.py]
  (the coordinator [execute] and the worker body [worker_task]) together
  with the parts of the engine these two functions talk to.

  Layout:
  - [Model]         events, statuses, schema errors;
  - [Coordinator]   the generator [execute], run against the rounds of its
                    polling loop;
  - [TaskProducer]  the shared cursor over the operations;
  - [Pool]          [worker_task] as a small-step machine, scheduled
                    together with the other workers of the pool;
  - [Strategy]      [get_strategy_kwargs], the generation settings of an
                    operation;
  - [ResourcePaths] the prefix matcher of stateful testing;
  - [Checks]        status classes, [positive_data_acceptance] and
                    [has_only_additional_properties_in_non_body_parameters].
  - [Service]       the events of [service/events.py];
  - [TestSupport]   [build_metadata] of the tests of the checks.
  [ResourcePaths] and [Checks] follow the specification of the checks,
  and are run against the tables of [test/specs/openapi/test_checks.py]. *)

From Stdlib Require Import Floats.PrimFloat.
From Stdlib Require Import ZArith Lia Bool Ascii String DecimalString.
From stdpp Require Import base list strings gmap.

Local Open Scope string_scope.
Local Open Scope list_scope.

(** ** Data model *)

Module Model.

(** Modelled from the spec: the enumeration [Status] of
    [schemathesis.runner], of which [execute] uses four members; section 3
    orders them by severity, INTERRUPTED > ERROR > FAILURE > SUCCESS. *)
Inductive Status := SUCCESS | FAILURE | ERROR | INTERRUPTED.

Definition severity (s : Status) : nat :=
  match s with
  | SUCCESS => 0
  | FAILURE => 1
  | ERROR => 2
  | INTERRUPTED => 3
  end.

(** The more severe of two statuses. *)
Definition Status_max (a b : Status) : Status :=
  if Nat.leb (severity b) (severity a) then a else b.

Inductive PhaseName := UNIT_TESTING | STATEFUL_TESTING.

(** A phase, of which [execute] reads the name. *)
Record Phase := { name : PhaseName }.

(** [uuid.UUID]: only its identity matters. *)
Definition UUID := nat.

(** The per-operation error a [Result] may carry ([result.err()]):
    [worker_task] reads [method] and [full_path]. *)
Record SchemaError := {
  message : string;
  method : option string;
  full_path : option string
}.

(** [ScenarioRecorder(label=...)] starts with no recorded case. *)
Record ScenarioRecorder := {
  label : string;
  cases : list string
}.

Definition new_recorder (l : string) : ScenarioRecorder :=
  {| label := l; cases := [] |}.

(** The events of [schemathesis.runner.events] this phase builds or
    inspects, with the keyword arguments of their constructors.  The [id]
    of [SuiteStarted] and [ScenarioStarted] is drawn when the event is
    built; timestamps are left out. *)
Inductive Event :=
| SuiteStarted (id : UUID) (phase : PhaseName)
| SuiteFinished (id : UUID) (phase : PhaseName) (status : Status)
| PhaseFinished (phase : Phase) (status : Status)
| ScenarioStarted (id : UUID) (label : string) (phase : PhaseName)
  (suite_id : UUID)
| ScenarioFinished (id suite_id : UUID) (phase : PhaseName)
  (status : Status) (recorder : ScenarioRecorder)
  (elapsed_time : float) (skip_reason : option string)
  (is_final : bool)
| NonFatalError (error : SchemaError) (phase : PhaseName) (label : string)
                (related_to_operation : bool)
| Interrupted (phase : PhaseName).

(** [isinstance(event, events.NonFatalError)] and friends. *)
Definition is_NonFatalError (e : Event) : bool :=
  match e with NonFatalError _ _ _ _ => true | _ => false end.

Definition is_ScenarioStarted (e : Event) : bool :=
  match e with ScenarioStarted _ _ _ _ => true | _ => false end.

Definition is_ScenarioFinished (e : Event) : bool :=
  match e with ScenarioFinished _ _ _ _ _ _ _ _ => true | _ => false end.

Definition is_Interrupted (e : Event) : bool :=
  match e with Interrupted _ => true | _ => false end.

Definition is_SuiteStarted (e : Event) : bool :=
  match e with SuiteStarted _ _ => true | _ => false end.

Definition is_SuiteFinished (e : Event) : bool :=
  match e with SuiteFinished _ _ _ => true | _ => false end.

Definition is_PhaseFinished (e : Event) : bool :=
  match e with PhaseFinished _ _ => true | _ => false end.

(** Events that open or close a suite or a phase: the coordinator builds
    them, a worker never puts one on the queue. *)
Definition is_boundary (e : Event) : bool :=
  is_SuiteStarted e || is_SuiteFinished e || is_PhaseFinished e.

(** How many events of [l] satisfy [p]. *)
Definition count (p : Event -> bool) (l : list Event) : nat :=
  length (List.filter p l).

Lemma count_app p l1 l2 : count p (l1 ++ l2) = count p l1 + count p l2.
Proof. unfold count. by rewrite List.filter_app, length_app. Qed.

Lemma count_cons p e l :
  count p (e :: l) = (if p e then 1 else 0) + count p l.
Proof. unfold count. simpl. by destruct (p e). Qed.

Lemma severity_inj a b : severity a = severity b -> a = b.
Proof. by destruct a, b. Qed.

Lemma Status_max_severity a b :
  severity (Status_max a b) = Nat.max (severity a) (severity b).
Proof. destruct a, b; reflexivity. Qed.

End Model.

(** ** The coordinator: [execute] *)

Module Coordinator.
Import Model.

(** [execute] is a generator: between two of its polls the workers put
    events on [pool.events_queue], and it reads the engine context
    ([engine.is_stopped], [engine.is_interrupted]), whose class is not
    among the sources.  One [Round] records what one turn of the
    [while True] loop meets:
    - [puts]: the events the workers put during the turn, in queue order;
    - [timed_out]: [get] timed out before the first of them arrived
      (which only happens when the queue was empty): they are put between
      the timeout and the look at the workers;
    - [signal]: a [KeyboardInterrupt] reaches the main thread inside the
      [try] block (it spends its time there blocked in [get]);
    - [alive]: [worker.is_alive()] per worker, read when [get] times out;
    - [stopped_at_get]: [engine.is_stopped] after [get] returned;
    - [interrupted]: [engine.is_interrupted] after the event is yielded
      and [engine.on_event] has run;
    - [stopped_after]: [engine.is_stopped] at the end of the turn. *)
Record Round := {
  puts : list Event;
  timed_out : bool;
  signal : bool;
  alive : nat -> bool;
  stopped_at_get : bool;
  interrupted : bool;
  stopped_after : bool
}.

(** [all(not worker.is_alive() for worker in pool.workers)] *)
Definition all_dead (workers_num : nat) (alive : nat -> bool) : bool :=
  forallb (fun i => negb (alive i)) (seq 0 workers_num).

(** [status in (Status.ERROR, Status.INTERRUPTED)] *)
Definition in_ERROR_INTERRUPTED (s : Status) : bool :=
  match s with ERROR | INTERRUPTED => true | _ => false end.

(** [event.status in (Status.FAILURE, Status.ERROR, Status.INTERRUPTED)] *)
Definition in_FAILURE_ERROR_INTERRUPTED (s : Status) : bool :=
  match s with FAILURE | ERROR | INTERRUPTED => true | _ => false end.

(** The three [if]s that follow [engine.on_event(event)]. *)
Definition update_status (status : Status) (event : Event)
    (is_interrupted : bool) : Status :=
  let status := if is_NonFatalError event then ERROR else status in
  let status :=
    match event with
    | ScenarioFinished _ _ _ event_status _ _ _ _ =>
        if negb (in_ERROR_INTERRUPTED status)
           && in_FAILURE_ERROR_INTERRUPTED event_status
        then event_status else status
    | _ => status
    end in
  if is_interrupted then INTERRUPTED else status.

Global Arguments update_status : simpl never.

(** How the [while True] loop was left. *)
Record LoopExit := {
  forwarded : list Event;   (* taken from the queue and yielded *)
  signalled : bool;         (* left through [except KeyboardInterrupt] *)
  status : Status;          (* the aggregate when the loop ends *)
  dropped : list Event      (* put on the queue, never yielded *)
}.

Definition forward (event : Event) (x : option LoopExit) : option LoopExit :=
  match x with
  | Some x => Some {| forwarded := event :: forwarded x;
                      signalled := signalled x;
                      status := status x;
                      dropped := dropped x |}
  | None => None
  end.

(** What [get] finds in a round: the queue with the events put during the
    turn, or nothing when it timed out on an empty queue before they
    arrived. *)
Definition found (r : Round) (queue : list Event) : list Event :=
  match queue with
  | [] => if timed_out r then [] else puts r
  | _ => queue ++ puts r
  end.

(** The loop of [execute], one round per turn; [None] when the rounds end
    while the loop is still polling. *)
Fixpoint poll (workers_num : nat) (rounds : list Round)
    (queue : list Event) (status : Status) : option LoopExit :=
  match rounds with
  | [] => None
  | r :: rounds =>
      if signal r then
        (* except KeyboardInterrupt: engine.stop(); status = INTERRUPTED *)
        Some {| forwarded := []; signalled := true;
                status := INTERRUPTED; dropped := queue ++ puts r |}
      else
        match found r queue with
        | [] =>
            (* except queue.Empty; by the time the workers are looked at,
               the puts of the round are on the queue *)
            if all_dead workers_num (alive r) then
              Some {| forwarded := []; signalled := false;
                      status := status; dropped := queue ++ puts r |}
            else poll workers_num rounds (queue ++ puts r) status
        | event :: queue =>
            if stopped_at_get r then
              Some {| forwarded := []; signalled := false;
                      status := status; dropped := event :: queue |}
            else
              let status := update_status status event (interrupted r) in
              if stopped_after r then
                Some {| forwarded := [event]; signalled := false;
                        status := status; dropped := queue |}
              else forward event (poll workers_num rounds queue status)
        end
  end.

(** What the generator yields after the loop. *)
Definition closing (suite_id : UUID) (phase : Phase) (x : LoopExit)
    : list Event :=
  (if signalled x then [Interrupted UNIT_TESTING] else [])
  ++ [SuiteFinished suite_id (name phase) (status x);
      PhaseFinished phase (status x)].

(** [execute(engine, phase)]: the whole stream of the generator.
    [suite_id] is the id drawn for [suite_started]. *)
Definition execute (workers_num : nat) (suite_id : UUID) (phase : Phase)
    (rounds : list Round) : option (list Event) :=
  match poll workers_num rounds [] SUCCESS with
  | Some x =>
      Some (SuiteStarted suite_id (name phase)
              :: forwarded x ++ closing suite_id phase x)
  | None => None
  end.

(** The status an observed event stands for: a [ScenarioFinished] its own,
    a [NonFatalError] an [ERROR]. *)
Definition observed_status (e : Event) : option Status :=
  match e with
  | ScenarioFinished _ _ _ s _ _ _ _ => Some s
  | NonFatalError _ _ _ _ => Some ERROR
  | _ => None
  end.

(** The maximum-severity status among the observed events. *)
Fixpoint max_status (l : list Event) : Status :=
  match l with
  | [] => SUCCESS
  | e :: l =>
      match observed_status e with
      | Some s => Status_max s (max_status l)
      | None => max_status l
      end
  end.

(** A round in which nothing but the queue is seen. *)
Definition quiet (events : list Event) : Round :=
  {| puts := events; timed_out := false; signal := false;
     alive := fun _ => true; stopped_at_get := false; interrupted := false;
     stopped_after := false |}.

(** The round that ends a run: the queue stays empty and no worker is
    alive. *)
Definition idle : Round :=
  {| puts := []; timed_out := false; signal := false;
     alive := fun _ => false; stopped_at_get := false; interrupted := false;
     stopped_after := false |}.

(** Sample data: a phase, and the event that ends scenario [id]. *)
Definition unit_phase : Phase := {| name := UNIT_TESTING |}.

Definition finished (id : UUID) (s : Status) : Event :=
  ScenarioFinished id 7 UNIT_TESTING s (new_recorder "GET /users")
    0%float None true.

(** The engine stops (say, on reaching its failure limit) while handling
    the first of [events]. *)
Definition stopping (events : list Event) : Round :=
  {| puts := events; timed_out := false; signal := false;
     alive := fun _ => true; stopped_at_get := false; interrupted := false;
     stopped_after := true |}.

(** All that the workers put during the first [k] rounds. *)
Definition put_during (k : nat) (rounds : list Round) : list Event :=
  concat (map puts (take k rounds)).

(** *** Facts about the loop *)

Lemma found_cons r queue event q :
  found r queue = event :: q -> queue ++ puts r = event :: q.
Proof.
  unfold found. destruct queue as [|e queue]; [|done].
  by destruct (timed_out r).
Qed.

Lemma found_nil r queue :
  found r queue = [] ->
  queue = [] /\ (puts r = [] \/ timed_out r = true).
Proof.
  unfold found. destruct queue as [|e queue]; [|done].
  destruct (timed_out r); [by auto|]. simpl. by auto.
Qed.

Lemma forward_Some event o x :
  forward event o = Some x ->
  exists x', o = Some x' /\ forwarded x = event :: forwarded x'
    /\ signalled x = signalled x' /\ status x = status x'
    /\ dropped x = dropped x'.
Proof.
  destruct o as [x'|]; simpl; [|discriminate].
  intros [= <-]. by exists x'.
Qed.

(** The severity an event contributes to the maximum. *)
Definition weight (e : Event) : nat :=
  match observed_status e with Some s => severity s | None => 0 end.

Lemma max_status_cons e l :
  severity (max_status (e :: l)) = Nat.max (weight e) (severity (max_status l)).
Proof.
  unfold weight. simpl. destruct (observed_status e) as [s|].
  - apply Status_max_severity.
  - reflexivity.
Qed.

(** Without an interrupt, and away from [INTERRUPTED], one update takes
    the maximum. *)
Lemma update_status_max st e :
  st <> INTERRUPTED ->
  observed_status e <> Some INTERRUPTED ->
  severity (update_status st e false) = Nat.max (severity st) (weight e)
  /\ update_status st e false <> INTERRUPTED.
Proof.
  intros Hst He. unfold weight.
  unfold update_status.
  destruct e as [| | | |? ? ? s ? ? ? ?| |]; simpl in *;
    try (destruct st; simpl; split; (lia || congruence)).
  destruct st, s; simpl; split; (lia || congruence).
Qed.

Lemma poll_maximum n rounds :
  forall queue st x,
  poll n rounds queue st = Some x ->
  st <> INTERRUPTED ->
  Forall (fun r => signal r = false /\ interrupted r = false) rounds ->
  Forall (fun e => observed_status e <> Some INTERRUPTED) (forwarded x) ->
  severity (status x)
  = Nat.max (severity st) (severity (max_status (forwarded x))).
Proof.
  induction rounds as [|r rounds IH]; intros queue st x; simpl; [discriminate|].
  intros Hx Hst Hr Hf.
  apply Forall_cons in Hr as [[Hsig Hint] Hr]. rewrite Hsig in Hx.
  destruct (found r queue) as [|event q].
  - destruct (all_dead n (alive r)).
    + injection Hx as <-. simpl. lia.
    + by apply (IH (queue ++ puts r) st x).
  - destruct (stopped_at_get r).
    { injection Hx as <-. simpl. lia. }
    rewrite Hint in Hx.
    destruct (stopped_after r).
    + injection Hx as <-. cbn [status forwarded] in *.
      apply Forall_cons in Hf as [He _].
      destruct (update_status_max st event Hst He) as [-> _].
      rewrite max_status_cons. simpl. lia.
    + apply forward_Some in Hx as (x' & Hx' & Hfw & _ & Hs & _).
      rewrite Hfw in Hf |- *. apply Forall_cons in Hf as [He Hf].
      destruct (update_status_max st event Hst He) as [Hmax Hne].
      rewrite Hs, (IH q _ x' Hx' Hne Hr Hf), Hmax, max_status_cons. lia.
Qed.

(** Once the queue is empty and every worker has exited, the loop ends: it
    needs one idle round per event still queued, and one more. *)
Lemma poll_idle n k :
  forall queue st, length queue < k ->
  is_Some (poll n (repeat idle k) queue st).
Proof.
  assert (Hdead : all_dead n (fun _ => false) = true).
  { unfold all_dead. apply forallb_forall. by intros. }
  induction k as [|k IH]; intros queue st Hk; [lia|].
  simpl. unfold found. simpl. rewrite app_nil_r.
  destruct queue as [|event q].
  - rewrite Hdead. eauto.
  - simpl in Hk. destruct (IH q (update_status st event false)) as [x ->];
      [lia|]. simpl. eauto.
Qed.

Lemma poll_terminates n rounds :
  forall queue st k,
  length queue + length (put_during (length rounds) rounds) < k ->
  is_Some (poll n (rounds ++ repeat idle k) queue st).
Proof.
  unfold put_during.
  induction rounds as [|r rounds IH]; intros queue st k Hk.
  - simpl in *. apply poll_idle. lia.
  - simpl in Hk. rewrite length_app in Hk. simpl.
    destruct (signal r); [eauto|].
    destruct (found r queue) as [|event q] eqn:Hq.
    + destruct (all_dead n (alive r)); [eauto|]. apply IH.
      rewrite length_app. lia.
    + apply found_cons in Hq.
      assert (length q < length queue + length (puts r)).
      { rewrite <- length_app, Hq. simpl. lia. }
      destruct (stopped_at_get r); [eauto|].
      destruct (stopped_after r); [eauto|].
      destruct (IH q (update_status st event (interrupted r)) k) as [x ->];
        [lia|]. simpl. eauto.
Qed.

(** Every event put before the loop ends is either forwarded, in queue
    order, or dropped; and nothing is dropped unless the coordinator met
    the stop flag or an interrupt. *)
Lemma poll_accounts n rounds :
  forall queue st x,
  poll n rounds queue st = Some x ->
  exists k, 0 < k <= length rounds
    /\ poll n (take (k - 1) rounds) queue st = None
    /\ poll n (take k rounds) queue st = Some x
    /\ forwarded x ++ dropped x = queue ++ put_during k rounds
    /\ (Forall (fun r => signal r = false /\ stopped_at_get r = false
                         /\ stopped_after r = false
                         /\ (timed_out r = true ->
                             all_dead n (alive r) = true -> puts r = []))
          (take k rounds) ->
        dropped x = []).
Proof.
  unfold put_during.
  induction rounds as [|r rounds IH]; intros queue st x; [discriminate|].
  intros Hx. simpl in Hx.
  destruct (signal r) eqn:Hsig.
  { injection Hx as <-. exists 1.
    split; [simpl; lia|]. split; [done|].
    split; [simpl; by rewrite Hsig|].
    split; [simpl; by rewrite app_nil_r|].
    intros H. apply Forall_cons in H as [[? _] _]. congruence. }
  destruct (found r queue) as [|event q] eqn:Hq.
  - destruct (all_dead n (alive r)) eqn:Hdead.
    + injection Hx as <-. exists 1.
      split; [simpl; lia|]. split; [done|].
      split; [simpl; by rewrite Hsig, Hq, Hdead|].
      split; [simpl; by rewrite app_nil_r|].
      intros H. apply Forall_cons in H as [(_ & _ & _ & Hlate) _].
      destruct (found_nil r queue Hq) as [-> [->|Hto]]; [done|].
      simpl. by apply Hlate.
    + destruct (IH (queue ++ puts r) st x Hx)
        as (k & Hk & Hrun & Hend & Hacc & Hnone).
      exists (S k). split; [simpl; lia|].
      split.
      { replace (S k - 1) with (S (k - 1)) by lia.
        simpl. by rewrite Hsig, Hq, Hdead. }
      split; [simpl; by rewrite Hsig, Hq, Hdead|].
      split; [simpl; by rewrite Hacc, <- app_assoc|].
      intros H. apply Forall_cons in H as [_ H]. auto.
  - pose proof (found_cons r queue event q Hq) as Harr.
    destruct (stopped_at_get r) eqn:Hget.
    { injection Hx as <-. exists 1.
      split; [simpl; lia|]. split; [done|].
      split; [simpl; by rewrite Hsig, Hq, Hget|].
      split; [simpl; by rewrite app_nil_r, Harr|].
      intros H. apply Forall_cons in H as [(_ & ? & _) _]. congruence. }
    destruct (stopped_after r) eqn:Hafter.
    { injection Hx as <-. exists 1.
      split; [simpl; lia|]. split; [done|].
      split; [simpl; by rewrite Hsig, Hq, Hget, Hafter|].
      split; [simpl; by rewrite app_nil_r, Harr|].
      intros H. apply Forall_cons in H as [(_ & _ & ? & _) _]. congruence. }
    destruct (poll n rounds q (update_status st event (interrupted r)))
      as [x'|] eqn:Hx'; [|done].
    simpl in Hx. injection Hx as <-.
    destruct (IH q _ x' Hx') as (k & Hk & Hrun & Hend & Hacc & Hnone).
    exists (S k). split; [simpl; lia|].
    split.
    { replace (S k - 1) with (S (k - 1)) by lia.
      simpl. by rewrite Hsig, Hq, Hget, Hafter, Hrun. }
    split; [simpl; by rewrite Hsig, Hq, Hget, Hafter, Hend|].
    split.
    { simpl. by rewrite Hacc, app_assoc, Harr. }
    simpl. intros H. apply Forall_cons in H as [_ H]. auto.
Qed.

(** A worker puts no event that opens or closes a suite or a phase; then
    none is forwarded. *)
Lemma poll_forwards_puts n rounds :
  forall queue st x P,
  poll n rounds queue st = Some x ->
  Forall P queue ->
  Forall (fun r => Forall P (puts r)) rounds ->
  Forall P (forwarded x).
Proof.
  intros queue st x P Hx Hq Hr.
  destruct (poll_accounts n rounds queue st x Hx)
    as (k & _ & _ & _ & Hacc & _).
  assert (H : Forall P (forwarded x ++ dropped x)).
  { rewrite Hacc. apply Forall_app. split; [done|].
    unfold put_during. apply Forall_concat, Forall_map.
    apply Forall_take. done. }
  by apply Forall_app in H as [H _].
Qed.

Lemma count_none p l :
  Forall (fun e => is_boundary e = false) l ->
  (forall e, p e = true -> is_boundary e = true) ->
  count p l = 0.
Proof.
  intros Hl Hp. induction Hl as [|e l He _ IH]; [done|].
  rewrite count_cons, IH. destruct (p e) eqn:Hpe; [|done].
  apply Hp in Hpe. congruence.
Qed.

(** *** The aggregate status (C1) *)

(** An [ERROR] already reached is kept when a later scenario finishes
    [INTERRUPTED]: the final status is then below the maximum. *)
Lemma error_hides_interrupted :
  exists x,
    poll 1 [quiet [finished 1 ERROR; finished 2 INTERRUPTED]; quiet []; idle]
      [] SUCCESS = Some x
    /\ forwarded x = [finished 1 ERROR; finished 2 INTERRUPTED]
    /\ status x = ERROR
    /\ max_status (forwarded x) = INTERRUPTED.
Proof. eexists. repeat split. Qed.

(** A NonFatalError that arrives when the aggregate is INTERRUPTED and no
    interrupt is pending sets it to ERROR. *)
Example nonfatal_after_interrupted :
  update_status INTERRUPTED
    (NonFatalError {| message := "timeout"; method := Some "get";
                      full_path := Some "/users" |}
       UNIT_TESTING "GET /users" true) false
  = ERROR.
Proof. reflexivity. Qed.

(** C1, amended.  The aggregate of [execute] obeys three laws.
    (1) When the engine is interrupted in the polling cycle of an event,
    the aggregate becomes INTERRUPTED whatever the event is, an
    ERROR-causing one included.
    (2) The aggregate never decreases in severity when an event is
    processed, a NonFatalError arriving at INTERRUPTED with no interrupt
    pending being left aside.
    (3) When no interrupt occurs and no forwarded ScenarioFinished carries
    INTERRUPTED, the final aggregate is the maximum-severity status among
    the forwarded ScenarioFinished and NonFatalError events. *)
Theorem aggregate_status_law :
  (forall st event, update_status st event true = INTERRUPTED)
  /\ (forall st event i,
        (st = INTERRUPTED -> is_NonFatalError event = true -> i = true) ->
        severity st <= severity (update_status st event i))
  /\ (forall workers_num rounds x,
        poll workers_num rounds [] SUCCESS = Some x ->
        Forall (fun r => signal r = false /\ interrupted r = false) rounds ->
        Forall (fun e => observed_status e <> Some INTERRUPTED) (forwarded x) ->
        status x = max_status (forwarded x)).
Proof.
  split; [|split].
  - intros st event. unfold update_status. by destruct event.
  - intros st event i Hi. unfold update_status.
    destruct i.
    + destruct st; simpl; lia.
    + destruct event as [| | | |? ? ? s ? ? ? ?| |]; simpl in *;
        try lia.
      * destruct st, s; simpl; lia.
      * destruct st; simpl; try lia. by specialize (Hi eq_refl eq_refl).
  - intros n rounds x Hx Hr Hf. apply severity_inj.
    rewrite (poll_maximum n rounds [] SUCCESS x Hx); [done|done|done|done].
Qed.

Lemma aggregate_status_law_witness :
  exists x,
    poll 2 [quiet [finished 1 FAILURE; finished 2 ERROR; finished 3 SUCCESS];
            quiet []; quiet []; idle] [] SUCCESS = Some x
    /\ status x = ERROR
    /\ status x = max_status (forwarded x).
Proof.
  eexists. split; [reflexivity|]. split; [reflexivity|].
  apply (proj2 (proj2 aggregate_status_law) 2
           [quiet [finished 1 FAILURE; finished 2 ERROR; finished 3 SUCCESS];
            quiet []; quiet []; idle]).
  - reflexivity.
  - repeat constructor.
  - repeat constructor; discriminate.
Defined.

(** *** The shape of the stream (C3) *)

(** C3.  Whatever the number of workers, and whatever they put on the
    queue, a phase execution ends once the workers have exited and the
    queue has drained; and the stream of an execution that has ended is
    one SuiteStarted, the forwarded events, then exactly one SuiteFinished
    immediately followed by exactly one PhaseFinished, both carrying the
    aggregate status the loop ended with. *)
Theorem execute_brackets workers_num suite_id phase rounds :
  Forall (fun r => Forall (fun e => is_boundary e = false) (puts r)) rounds ->
  (exists k stream,
      execute workers_num suite_id phase (rounds ++ repeat idle k)
      = Some stream)
  /\ (forall stream,
        execute workers_num suite_id phase rounds = Some stream ->
        exists body x,
          poll workers_num rounds [] SUCCESS = Some x
          /\ stream = SuiteStarted suite_id (name phase) :: body
                      ++ [SuiteFinished suite_id (name phase) (status x);
                          PhaseFinished phase (status x)]
          /\ count is_SuiteStarted stream = 1
          /\ count is_SuiteFinished stream = 1
          /\ count is_PhaseFinished stream = 1).
Proof.
  intros Hputs. split.
  - exists (S (length (put_during (length rounds) rounds))).
    unfold execute.
    destruct (poll_terminates workers_num rounds [] SUCCESS
                (S (length (put_during (length rounds) rounds))))
      as [x ->]; [simpl; lia|]. eauto.
  - intros stream. unfold execute.
    destruct (poll workers_num rounds [] SUCCESS) as [x|] eqn:Hx;
      [|discriminate].
    intros [= <-].
    unfold closing. rewrite app_assoc.
    set (body := forwarded x
                 ++ (if signalled x then [Interrupted UNIT_TESTING] else [])).
    exists body, x.
    assert (Hbody : Forall (fun e => is_boundary e = false) body).
    { apply Forall_app. split.
      - by apply (poll_forwards_puts workers_num rounds [] SUCCESS).
      - destruct (signalled x); repeat constructor. }
    split; [done|]. split; [done|].
    rewrite !count_cons, !count_app, !count_cons. simpl.
    rewrite !(count_none _ _ Hbody); [done| | |].
    + intros e He. unfold is_boundary. rewrite He.
      by destruct (is_SuiteStarted e), (is_SuiteFinished e).
    + intros e He. unfold is_boundary. rewrite He.
      by destruct (is_SuiteStarted e).
    + intros e He. unfold is_boundary. by rewrite He.
Qed.

Lemma execute_brackets_witness :
  execute 2 7 unit_phase [quiet [finished 1 SUCCESS; finished 2 FAILURE];
                          quiet []; idle]
  = Some [SuiteStarted 7 UNIT_TESTING; finished 1 SUCCESS; finished 2 FAILURE;
          SuiteFinished 7 UNIT_TESTING FAILURE;
          PhaseFinished unit_phase FAILURE]
  /\ exists body x,
       poll 2 [quiet [finished 1 SUCCESS; finished 2 FAILURE]; quiet []; idle]
         [] SUCCESS = Some x
       /\ [SuiteStarted 7 UNIT_TESTING; finished 1 SUCCESS;
           finished 2 FAILURE; SuiteFinished 7 UNIT_TESTING FAILURE;
           PhaseFinished unit_phase FAILURE]
          = SuiteStarted 7 (name unit_phase) :: body
            ++ [SuiteFinished 7 (name unit_phase) (status x);
                PhaseFinished unit_phase (status x)]
       /\ count is_SuiteStarted
            [SuiteStarted 7 UNIT_TESTING; finished 1 SUCCESS;
             finished 2 FAILURE; SuiteFinished 7 UNIT_TESTING FAILURE;
             PhaseFinished unit_phase FAILURE] = 1
       /\ count is_SuiteFinished
            [SuiteStarted 7 UNIT_TESTING; finished 1 SUCCESS;
             finished 2 FAILURE; SuiteFinished 7 UNIT_TESTING FAILURE;
             PhaseFinished unit_phase FAILURE] = 1
       /\ count is_PhaseFinished
            [SuiteStarted 7 UNIT_TESTING; finished 1 SUCCESS;
             finished 2 FAILURE; SuiteFinished 7 UNIT_TESTING FAILURE;
             PhaseFinished unit_phase FAILURE] = 1.
Proof.
  split; [reflexivity|].
  apply (proj2 (execute_brackets 2 7 unit_phase
                  [quiet [finished 1 SUCCESS; finished 2 FAILURE];
                   quiet []; idle]
                  ltac:(repeat constructor))).
  reflexivity.
Defined.

(** *** Forwarding (C6) *)

(** The engine stops while the first of two queued events is handled: the
    second, put on the queue before the stop flag was set (the flag read
    false after both were put), is never yielded. *)
Lemma stop_drops_queued_event :
  stopped_at_get (stopping [finished 1 FAILURE; finished 2 SUCCESS]) = false
  /\ poll 1 [stopping [finished 1 FAILURE; finished 2 SUCCESS]] [] SUCCESS
     = Some {| forwarded := [finished 1 FAILURE]; signalled := false;
               status := FAILURE; dropped := [finished 2 SUCCESS] |}
  /\ execute 1 7 unit_phase [stopping [finished 1 FAILURE; finished 2 SUCCESS]]
     = Some [SuiteStarted 7 UNIT_TESTING; finished 1 FAILURE;
             SuiteFinished 7 UNIT_TESTING FAILURE;
             PhaseFinished unit_phase FAILURE].
Proof. repeat split. Qed.

(** The workers put their last event after the coordinator's [get] has
    timed out, and have exited when it looks at them: the loop is left
    with the event on the queue, though the engine was neither stopped nor
    interrupted. *)
Example late_put_is_dropped :
  poll 1 [{| puts := [finished 1 FAILURE]; timed_out := true;
             signal := false; alive := fun _ => false;
             stopped_at_get := false; interrupted := false;
             stopped_after := false |}] [] SUCCESS
  = Some {| forwarded := []; signalled := false; status := SUCCESS;
            dropped := [finished 1 FAILURE] |}.
Proof. reflexivity. Qed.

(** C6, amended.  With [k] the number of turns the loop takes (it is
    still polling after [k - 1] turns and has ended after [k]), the events
    the workers put during these turns are, in queue order, those the
    coordinator yielded followed by those left unyielded.  An event is left
    unyielded only if the coordinator met the stop flag or an interrupt,
    or if the event was put after the last [get] had timed out and every
    worker had exited when the coordinator looked: when none of this
    happens, every event put is yielded. *)
Theorem put_events_forwarded workers_num rounds x :
  poll workers_num rounds [] SUCCESS = Some x ->
  exists k, 0 < k <= length rounds
    /\ poll workers_num (take (k - 1) rounds) [] SUCCESS = None
    /\ poll workers_num (take k rounds) [] SUCCESS = Some x
    /\ forwarded x ++ dropped x = put_during k rounds
    /\ (Forall (fun r => signal r = false /\ stopped_at_get r = false
                         /\ stopped_after r = false
                         /\ (timed_out r = true ->
                             all_dead workers_num (alive r) = true ->
                             puts r = []))
          (take k rounds) ->
        forwarded x = put_during k rounds).
Proof.
  intros Hx.
  destruct (poll_accounts workers_num rounds [] SUCCESS x Hx)
    as (k & Hk & Hrun & Hend & Hacc & Hnone).
  simpl in Hacc. exists k. do 4 (split; [done|]).
  intros Hquiet. rewrite <- Hacc, (Hnone Hquiet). by rewrite app_nil_r.
Qed.

Lemma put_events_forwarded_witness :
  exists x k,
    poll 1 [quiet [finished 1 FAILURE; finished 2 SUCCESS]; quiet []; idle;
            quiet [finished 3 ERROR]]
      [] SUCCESS = Some x
    /\ forwarded x = [finished 1 FAILURE; finished 2 SUCCESS]
    /\ 0 < k <= 4
    /\ poll 1
         (take (k - 1)
            [quiet [finished 1 FAILURE; finished 2 SUCCESS]; quiet []; idle;
             quiet [finished 3 ERROR]]) [] SUCCESS = None
    /\ forwarded x
       = put_during k
           [quiet [finished 1 FAILURE; finished 2 SUCCESS]; quiet []; idle;
            quiet [finished 3 ERROR]].
Proof.
  eexists.
  destruct (put_events_forwarded 1
              [quiet [finished 1 FAILURE; finished 2 SUCCESS]; quiet []; idle;
               quiet [finished 3 ERROR]]
              _ eq_refl) as (k & Hk & Hrun & _ & _ & Hall).
  exists k. split; [reflexivity|]. split; [reflexivity|].
  split; [exact Hk|]. split; [exact Hrun|].
  apply Hall. apply Forall_take.
  repeat constructor; discriminate.
Defined.

(** *** Further properties of the loop *)

(** A run of the loop that has not ended carries on from where it stands:
    what it forwards later is appended to what it has forwarded. *)
Fixpoint forward_all (events : list Event) (x : option LoopExit)
    : option LoopExit :=
  match events with
  | [] => x
  | event :: events => forward event (forward_all events x)
  end.

Lemma forward_all_Some events x :
  forward_all events (Some x)
  = Some {| forwarded := events ++ forwarded x; signalled := signalled x;
            status := status x; dropped := dropped x |}.
Proof.
  induction events as [|e events IH]; simpl.
  - by destruct x.
  - by rewrite IH.
Qed.

Lemma poll_continues n before :
  forall queue st,
  poll n before queue st = None ->
  exists events queue' st',
    forall more,
    poll n (before ++ more) queue st
    = forward_all events (poll n more queue' st').
Proof.
  induction before as [|r before IH]; intros queue st Hnone.
  - by exists [], queue, st.
  - simpl in Hnone. simpl.
    destruct (signal r); [done|].
    destruct (found r queue) as [|event q].
    + destruct (all_dead n (alive r)); [done|]. by apply IH.
    + destruct (stopped_at_get r); [done|].
      destruct (stopped_after r); [done|].
      destruct (poll n before q (update_status st event (interrupted r)))
        eqn:Hp; [done|].
      destruct (IH _ _ Hp) as (events & queue' & st' & Hmore).
      exists (event :: events), queue', st'. intros more.
      by rewrite Hmore.
Qed.

(** Each update keeps the aggregate at or above the severity of the event
    it processes, and at or above what it was, INTERRUPTED counting as
    ERROR on both sides. *)
Lemma update_status_floor st event i :
  Nat.min (weight event) 2 <= severity (update_status st event i)
  /\ Nat.min (severity st) 2 <= severity (update_status st event i).
Proof.
  unfold update_status, weight. destruct i.
  - simpl. split; lia.
  - destruct event as [| | | |? ? ? s ? ? ? ?| |]; simpl;
      try (destruct st; simpl; split; lia).
    destruct st, s; simpl; split; lia.
Qed.

Lemma poll_floor n rounds :
  forall queue st x,
  poll n rounds queue st = Some x ->
  Nat.min (severity st) 2 <= severity (status x)
  /\ forall e, In e (forwarded x) ->
       Nat.min (weight e) 2 <= severity (status x).
Proof.
  induction rounds as [|r rounds IH]; intros queue st x; simpl; [done|].
  intros Hx. destruct (signal r).
  { injection Hx as <-. simpl. split; [lia|done]. }
  destruct (found r queue) as [|event q].
  - destruct (all_dead n (alive r)).
    + injection Hx as <-. simpl. split; [lia|done].
    + by apply (IH (queue ++ puts r) st x).
  - destruct (stopped_at_get r).
    { injection Hx as <-. simpl. split; [lia|done]. }
    destruct (update_status_floor st event (interrupted r)) as [Hev Hst].
    destruct (stopped_after r).
    + injection Hx as <-. cbn [status forwarded]. split; [done|].
      intros e [<-|[]]. done.
    + apply forward_Some in Hx as (x' & Hx' & Hfw & _ & Hs & _).
      destruct (IH q _ x' Hx') as [Hfloor Hall].
      rewrite Hs, Hfw. split; [lia|].
      intros e [<-|He]; [lia|]. by apply Hall.
Qed.

(** X1.  [execute], lines 75-82.  A KeyboardInterrupt that reaches the
    coordinator while its loop is still polling ends the stream: after what
    was forwarded come one Interrupted event, tagged UNIT_TESTING whatever
    the phase, then SuiteFinished and PhaseFinished, both INTERRUPTED
    whatever the aggregate was; the rounds that follow are not looked
    at. *)
Theorem interrupt_closes_stream workers_num suite_id phase before r after :
  poll workers_num before [] SUCCESS = None ->
  signal r = true ->
  exists events,
    execute workers_num suite_id phase (before ++ r :: after)
    = Some (SuiteStarted suite_id (name phase) :: events
            ++ [Interrupted UNIT_TESTING;
                SuiteFinished suite_id (name phase) INTERRUPTED;
                PhaseFinished phase INTERRUPTED])
    /\ execute workers_num suite_id phase (before ++ [r])
       = execute workers_num suite_id phase (before ++ r :: after).
Proof.
  intros Hnone Hsig.
  destruct (poll_continues workers_num before [] SUCCESS Hnone)
    as (events & queue & st & Hmore).
  exists events. unfold execute. rewrite !Hmore. simpl. rewrite Hsig.
  rewrite !forward_all_Some. simpl. unfold closing. simpl.
  by rewrite app_nil_r.
Qed.

Lemma interrupt_closes_stream_witness :
  execute 2 7 {| name := STATEFUL_TESTING |}
    ([quiet [finished 1 FAILURE; finished 2 SUCCESS]]
     ++ {| puts := [finished 3 ERROR]; timed_out := false; signal := true;
           alive := fun _ => true; stopped_at_get := false;
           interrupted := false; stopped_after := false |}
        :: [quiet []; idle])
  = Some [SuiteStarted 7 STATEFUL_TESTING; finished 1 FAILURE;
          Interrupted UNIT_TESTING;
          SuiteFinished 7 STATEFUL_TESTING INTERRUPTED;
          PhaseFinished {| name := STATEFUL_TESTING |} INTERRUPTED]
  /\ exists events,
       execute 2 7 {| name := STATEFUL_TESTING |}
         ([quiet [finished 1 FAILURE; finished 2 SUCCESS]]
          ++ {| puts := [finished 3 ERROR]; timed_out := false; signal := true;
                alive := fun _ => true; stopped_at_get := false;
                interrupted := false; stopped_after := false |}
             :: [quiet []; idle])
       = Some (SuiteStarted 7 STATEFUL_TESTING :: events
               ++ [Interrupted UNIT_TESTING;
                   SuiteFinished 7 STATEFUL_TESTING INTERRUPTED;
                   PhaseFinished {| name := STATEFUL_TESTING |} INTERRUPTED]).
Proof.
  split; [reflexivity|].
  destruct (interrupt_closes_stream 2 7 {| name := STATEFUL_TESTING |}
              [quiet [finished 1 FAILURE; finished 2 SUCCESS]]
              {| puts := [finished 3 ERROR]; timed_out := false; signal := true;
                 alive := fun _ => true; stopped_at_get := false;
                 interrupted := false; stopped_after := false |}
              [quiet []; idle] eq_refl eq_refl) as (events & Hrun & _).
  exists events. exact Hrun.
Defined.

(** X2.  [execute], lines 51-74.  As long as the engine is neither stopped nor
    interrupted, the coordinator does not leave its loop while a worker is
    alive: it keeps polling, however long the queue stays empty. *)
Theorem poll_waits_for_workers workers_num rounds queue st :
  Forall (fun r => signal r = false /\ stopped_at_get r = false
                   /\ stopped_after r = false
                   /\ all_dead workers_num (alive r) = false) rounds ->
  poll workers_num rounds queue st = None.
Proof.
  revert queue st.
  induction rounds as [|r rounds IH]; intros queue st Hr; [done|].
  apply Forall_cons in Hr as [(Hsig & Hget & Hafter & Halive) Hr].
  simpl. rewrite Hsig.
  destruct (found r queue) as [|event q].
  - rewrite Halive. by apply IH.
  - rewrite Hget, Hafter. by rewrite IH.
Qed.

Lemma poll_waits_for_workers_witness :
  poll 3 [quiet [finished 1 SUCCESS]; quiet []; quiet []; quiet []]
    [] SUCCESS = None.
Proof.
  apply (poll_waits_for_workers 3
           [quiet [finished 1 SUCCESS]; quiet []; quiet []; quiet []]).
  repeat constructor.
Defined.

(** X3.  [execute], lines 58-68.  Whatever the engine context says, the final
    status is at least as severe as every ScenarioFinished and
    NonFatalError event that was forwarded, INTERRUPTED counting as ERROR:
    a phase in which a failure was reported does not end SUCCESS, and one
    in which an error was reported ends ERROR or INTERRUPTED. *)
Theorem status_covers_forwarded workers_num rounds x e :
  poll workers_num rounds [] SUCCESS = Some x ->
  In e (forwarded x) ->
  Nat.min (weight e) 2 <= severity (status x).
Proof.
  intros Hx He.
  by apply (proj2 (poll_floor workers_num rounds [] SUCCESS x Hx)).
Qed.

Lemma status_covers_forwarded_witness :
  exists x,
    poll 1 [quiet [finished 1 ERROR; finished 2 INTERRUPTED; finished 3 SUCCESS];
            quiet []; quiet []; idle] [] SUCCESS = Some x
    /\ status x = ERROR
    /\ Nat.min (weight (finished 2 INTERRUPTED)) 2 <= severity (status x).
Proof.
  eexists. split; [reflexivity|]. split; [reflexivity|].
  apply (status_covers_forwarded 1
           [quiet [finished 1 ERROR; finished 2 INTERRUPTED; finished 3 SUCCESS];
            quiet []; quiet []; idle] _ (finished 2 INTERRUPTED) eq_refl).
  simpl. tauto.
Defined.

End Coordinator.

(** ** The task producer *)

Module TaskProducer.

Section Producer.
Context {Item : Type}.

(** Modelled from the spec: the class [TaskProducer] ([_pool.py]) is not
    among the sources.  It is a cursor over the operation sequence whose
    advance is exclusive: a call to [next()] either takes the item under
    the cursor and moves past it, or finds the sequence exhausted and
    returns none, leaving it exhausted.  The state is the part of the
    sequence that lies ahead of the cursor. *)
Definition next_operation (ahead : list Item) : option Item * list Item :=
  match ahead with
  | [] => (None, [])
  | item :: ahead => (Some item, ahead)
  end.

(** Concurrent callers are served one at a time, in the order in which
    they enter the exclusive section: an interleaving of the calls is the
    list of the callers in that order.  [serve] gives what each call
    returned, and the producer afterwards. *)
Fixpoint serve (ahead : list Item) (callers : list nat)
    : list (nat * option Item) * list Item :=
  match callers with
  | [] => ([], ahead)
  | c :: callers =>
      let '(item, ahead) := next_operation ahead in
      let '(served, ahead) := serve ahead callers in
      ((c, item) :: served, ahead)
  end.

(** The items delivered, in the order of their delivery. *)
Fixpoint delivered (served : list (nat * option Item)) : list Item :=
  match served with
  | [] => []
  | (_, Some item) :: served => item :: delivered served
  | (_, None) :: served => delivered served
  end.

(** *** Exactly-once delivery *)

Lemma serve_lookup (callers : list nat) :
  forall (ahead : list Item) i c,
  callers !! i = Some c ->
  fst (serve ahead callers) !! i = Some (c, ahead !! i).
Proof.
  induction callers as [|c0 callers IH]; intros ahead i c Hi; [done|].
  simpl. destruct ahead as [|item ahead]; simpl.
  - specialize (IH [] (pred i)).
    destruct (serve [] callers) as [served rest]. simpl in *.
    destruct i as [|i]; simpl in *; [congruence|].
    rewrite (IH c Hi). by rewrite lookup_nil.
  - specialize (IH ahead (pred i)).
    destruct (serve ahead callers) as [served rest]. simpl in *.
    destruct i as [|i]; simpl in *; [congruence|]. by apply IH.
Qed.

Lemma serve_delivered (callers : list nat) :
  forall ahead : list Item,
  delivered (fst (serve ahead callers)) = take (length callers) ahead
  /\ snd (serve ahead callers) = drop (length callers) ahead.
Proof.
  induction callers as [|c callers IH]; intros ahead; [done|].
  simpl. destruct ahead as [|item ahead]; simpl.
  - destruct (IH []) as [IH1 IH2].
    destruct (serve [] callers) as [served rest]. simpl in *.
    by rewrite IH1, IH2, take_nil, drop_nil.
  - destruct (IH ahead) as [IH1 IH2].
    destruct (serve ahead callers) as [served rest]. simpl in *.
    by rewrite IH1, IH2.
Qed.

Lemma serve_exhausted (callers : list nat) :
  serve (@nil Item) callers = (map (fun c => (c, None)) callers, []).
Proof.
  induction callers as [|c callers IH]; [done|]. simpl. by rewrite IH.
Qed.

(** C4.  Under every interleaving of the calls of any number of callers,
    the call that enters the exclusive section in position [i] receives
    the item in position [i] of the sequence, or none when the sequence has
    no such position: the items delivered are the first items of the
    sequence, each once and none skipped; and once the callers have made
    as many calls as there are items, all are delivered and every further
    call returns none. *)
Theorem exactly_once (items : list Item) (callers : list nat) :
  (forall i c, callers !! i = Some c ->
     fst (serve items callers) !! i = Some (c, items !! i))
  /\ delivered (fst (serve items callers)) = take (length callers) items
  /\ snd (serve items callers) = drop (length callers) items
  /\ (length items <= length callers ->
      delivered (fst (serve items callers)) = items
      /\ snd (serve items callers) = []
      /\ forall more,
           serve (snd (serve items callers)) more
           = (map (fun c => (c, None)) more, [])).
Proof.
  destruct (serve_delivered callers items) as [Hd Hr].
  split; [apply serve_lookup|]. split; [done|]. split; [done|].
  intros Hlen. rewrite Hd, Hr.
  rewrite take_ge, drop_ge by lia.
  split; [done|]. split; [done|]. apply serve_exhausted.
Qed.

End Producer.

(** Ten items, three callers in some interleaving. *)
Example ten_items_three_callers :
  serve [0; 1; 2; 3; 4; 5; 6; 7; 8; 9] [0; 1; 2; 2; 1; 0; 0; 0; 1; 2; 1; 0]
  = ([(0, Some 0); (1, Some 1); (2, Some 2); (2, Some 3); (1, Some 4);
      (0, Some 5); (0, Some 6); (0, Some 7); (1, Some 8); (2, Some 9);
      (1, None); (0, None)], []).
Proof. reflexivity. Qed.

End TaskProducer.

(** ** The worker pool: [worker_task] *)

Module Pool.
Import Model.

(** What a step of [worker_task] may raise. *)
Inductive Exception :=
| KeyboardInterrupt
| AssertionError
| OtherException (name : string).

(** How the handling of one item ends. *)
Inductive Completion := Returns | Raises (e : Exception).

(** [str.upper()], on ASCII letters. *)
Definition upper_ascii (c : ascii) : ascii :=
  let n := nat_of_ascii c in
  if Nat.leb 97 n && Nat.leb n 122 then ascii_of_nat (n - 32) else c.

Fixpoint upper (s : string) : string :=
  match s with
  | EmptyString => EmptyString
  | String c s => String (upper_ascii c) (upper s)
  end.

(** [if error.method:] an absent or empty method is false. *)
Definition truthy (s : option string) : bool :=
  match s with
  | Some EmptyString | None => false
  | Some _ => true
  end.

(** [f"{x}"] of an optional string. *)
Definition format (s : option string) : string :=
  match s with Some s => s | None => "None" end.

(** The [else] branch of [worker_task]: the result is an error.  [id] is
    the id drawn for [scenario_started]. *)
Definition on_error (suite_id id : UUID) (error : SchemaError)
    : list Event * Completion :=
  if truthy (method error) then
    let label := upper (format (method error)) +:+ " "
                 +:+ format (full_path error) in
    ([ScenarioStarted id label UNIT_TESTING suite_id;
      NonFatalError error UNIT_TESTING label true;
      ScenarioFinished id suite_id UNIT_TESTING ERROR (new_recorder "Error")
        0%float None true],
     Returns)
  else
    match full_path error with
    | None => ([], Raises AssertionError)   (* assert error.full_path is not None *)
    | Some full_path =>
        ([NonFatalError error UNIT_TESTING full_path false], Returns)
    end.

(** What the generator [run_test(...)] does each time the [for] loop of
    the [Ok] branch resumes it: it yields an event and is suspended, or it
    ends.  It is handed [ctx], so what it does next may depend on the stop
    flag as it reads it when it is resumed. *)
Inductive Test :=
| Yields (event : Event) (rest : bool -> Test)
| Ends (after : Completion).

(** The events a generator yields when it reads [flag] each time it is
    resumed, and how it ends. *)
Fixpoint unroll (flag : bool) (test : Test) : list Event * Completion :=
  match test with
  | Yields event rest =>
      let '(events, after) := unroll flag (rest flag) in
      (event :: events, after)
  | Ends after => ([], after)
  end.

(** Modelled from the spec: [create_test] and [run_test] are imported
    from modules that are not among the sources.  Section 7 has every
    failure of a worker captured and reported as a NonFatalError event, the
    cooperative cancellation apart: a generator is contained when, whatever
    it reads of the flag, it ends by returning or with a KeyboardInterrupt. *)
Fixpoint contained (test : Test) : Prop :=
  match test with
  | Yields _ rest => forall flag, contained (rest flag)
  | Ends Returns => True
  | Ends (Raises e) => e = KeyboardInterrupt
  end.

Section Workers.

(** The operations, and what testing one amounts to for the worker: the
    [Ok] branch builds the test ([get_strategy_kwargs], [create_test]) and
    runs it, and [create_test] and [run_test] are not among the sources.
    [run_test op suite_id] is the [Ok] branch from the moment the loop
    first resumes the generator, given the reading of [ctx.is_stopped]. *)
Variable Operation : Type.
Variable run_test : Operation -> UUID -> bool -> Test.

(** [Result]: [Ok(operation)] or [Err(error)]. *)
Inductive Result :=
| Ok (operation : Operation)
| Err (error : SchemaError).

(** Where a worker thread stands in [worker_task]. *)
Inductive Worker :=
| Checking                    (* at [while not ctx.is_stopped] *)
| Pulling                     (* about to call [producer.next_operation()] *)
| Putting (events : list Event) (after : Completion)
                              (* inside the [else] branch, events left to put *)
| Testing (test : bool -> Test)
                              (* inside the [for] loop over [run_test(...)] *)
| Returned                    (* [worker_task] has returned *)
| Crashed (e : Exception).    (* an exception has left [worker_task] *)

(** What the threads of a pool share, and where each of them stands.
    [dispatched] records who pulled what, in the order of the pulls. *)
Record Engine := {
  is_stopped : bool;
  producer : list Result;
  events_queue : list Event;
  workers : list Worker;
  next_uuid : UUID;
  dispatched : list (nat * Result)
}.

Definition set_worker (i : nat) (w : Worker) (s : Engine) : Engine :=
  {| is_stopped := is_stopped s; producer := producer s;
     events_queue := events_queue s; workers := <[i := w]> (workers s);
     next_uuid := next_uuid s; dispatched := dispatched s |}.

(** [events_queue.put(event)] *)
Definition put (event : Event) (s : Engine) : Engine :=
  {| is_stopped := is_stopped s; producer := producer s;
     events_queue := events_queue s ++ [event]; workers := workers s;
     next_uuid := next_uuid s; dispatched := dispatched s |}.

(** The body of the loop for the item pulled, while the flag is not set:
    the events it puts, and how it ends. *)
Definition handle (suite_id id : UUID) (result : Result)
    : list Event * Completion :=
  match result with
  | Ok operation => unroll false (run_test operation suite_id false)
  | Err error => on_error suite_id id error
  end.

(** Where worker [i] stands once it holds the item. *)
Definition enter (suite_id id : UUID) (result : Result) : Worker :=
  match result with
  | Ok operation => Testing (run_test operation suite_id)
  | Err error =>
      let '(events, after) := on_error suite_id id error in
      Putting events after
  end.

(** [result = producer.next_operation()], by worker [i]. *)
Definition pull (suite_id : UUID) (i : nat) (s : Engine) : Engine :=
  match TaskProducer.next_operation (producer s) with
  | (None, _) => set_worker i Returned s          (* break *)
  | (Some result, ahead) =>
      {| is_stopped := is_stopped s; producer := ahead;
         events_queue := events_queue s;
         workers := <[i := enter suite_id (next_uuid s) result]> (workers s);
         next_uuid := S (next_uuid s);
         dispatched := dispatched s ++ [(i, result)] |}
  end.

(** The handling of an item has ended in worker [i]. *)
Definition finish (i : nat) (after : Completion) (s : Engine) : Engine :=
  match after with
  | Returns => set_worker i Checking s
  | Raises KeyboardInterrupt =>
      (* except KeyboardInterrupt *)
      set_worker i Returned (put (Interrupted UNIT_TESTING) s)
  | Raises e => set_worker i (Crashed e) s
  end.

(** One step of worker [i]. *)
Definition worker_task (suite_id : UUID) (i : nat) (s : Engine) : Engine :=
  match workers s !! i with
  | Some Checking =>
      set_worker i (if is_stopped s then Returned else Pulling) s
  | Some Pulling => pull suite_id i s
  | Some (Putting (event :: events) after) =>
      set_worker i (Putting events after) (put event s)
  | Some (Putting [] after) => finish i after s
  | Some (Testing test) =>
      match test (is_stopped s) with
      | Yields event rest => set_worker i (Testing rest) (put event s)
      | Ends after => finish i after s
      end
  | Some Returned | Some (Crashed _) | None => s
  end.

(** A [KeyboardInterrupt] raised in worker [i] wherever it stands in the
    loop. *)
Definition interrupt (i : nat) (s : Engine) : Engine :=
  match workers s !! i with
  | Some Checking | Some Pulling | Some (Putting _ _) | Some (Testing _) =>
      set_worker i Returned (put (Interrupted UNIT_TESTING) s)
  | Some Returned | Some (Crashed _) | None => s
  end.

(** [ctx.stop()]: the stop flag is set, by whoever sets it. *)
Definition stop (s : Engine) : Engine :=
  {| is_stopped := true; producer := producer s;
     events_queue := events_queue s; workers := workers s;
     next_uuid := next_uuid s; dispatched := dispatched s |}.

(** What may happen next in the pool. *)
Inductive Action :=
| Step (i : nat)        (* worker [i] runs one step *)
| Signal (i : nat)      (* worker [i] receives a KeyboardInterrupt *)
| Stop.                 (* the stop flag is set *)

#[local] Instance Action_eq_dec : EqDecision Action.
Proof. solve_decision. Defined.

Definition act (suite_id : UUID) (a : Action) (s : Engine) : Engine :=
  match a with
  | Step i => worker_task suite_id i s
  | Signal i => interrupt i s
  | Stop => stop s
  end.

(** A schedule is run from left to right. *)
Definition run (suite_id : UUID) (schedule : list Action) (s : Engine)
    : Engine :=
  foldl (fun s a => act suite_id a s) s schedule.

(** The pool as [WorkerPool] starts it: [workers_num] threads at the top
    of their loop, nothing queued, the flag not set. *)
Definition start (workers_num : nat) (operations : list Result) : Engine :=
  {| is_stopped := false; producer := operations; events_queue := [];
     workers := replicate workers_num Checking; next_uuid := 0;
     dispatched := [] |}.

(** How many operations worker [i] pulled in [log]. *)
Definition pulls (i : nat) (log : list (nat * Result)) : nat :=
  length (List.filter (fun p => Nat.eqb (fst p) i) log).

(** A worker that is still inside its loop. *)
Definition running (w : Worker) : bool :=
  match w with
  | Checking | Pulling | Putting _ _ | Testing _ => true
  | Returned | Crashed _ => false
  end.

(** The pulls a worker may still make once the flag is set: one if it
    stands between its check and its pull. *)
Definition may_pull (w : option Worker) : nat :=
  match w with Some Pulling => 1 | _ => 0 end.

(** *** Facts about the steps *)

Lemma set_worker_same i w s :
  i < length (workers s) -> workers (set_worker i w s) !! i = Some w.
Proof. intros Hi. simpl. by apply list_lookup_insert_eq. Qed.

Lemma set_worker_other i j w s :
  i <> j -> workers (set_worker j w s) !! i = workers s !! i.
Proof. intros Hij. simpl. by apply list_lookup_insert_ne. Qed.

Lemma run_cons suite_id a schedule s :
  run suite_id (a :: schedule) s = run suite_id schedule (act suite_id a s).
Proof. reflexivity. Qed.

Lemma run_app suite_id l1 l2 s :
  run suite_id (l1 ++ l2) s = run suite_id l2 (run suite_id l1 s).
Proof. unfold run. apply foldl_app. Qed.

(** No action clears the stop flag. *)
Lemma act_is_stopped suite_id a s :
  is_stopped s = true -> is_stopped (act suite_id a s) = true.
Proof.
  intros Hs. destruct a as [i|i|]; simpl; [| |done].
  - unfold worker_task, pull, finish.
    destruct (workers s !! i) as [[| |[|event events] [|[| |]]|test| |]|];
      simpl; try done.
    + by destruct (producer s) as [|result ahead].
    + by destruct (test (is_stopped s)) as [event rest|[|[| |]]].
  - unfold interrupt. by destruct (workers s !! i) as [[| | | | |]|].
Qed.

(** A worker inside the handling of an item puts the events of the item,
    one per step, whatever the stop flag says. *)
Lemma run_putting suite_id i after events :
  forall s,
  workers s !! i = Some (Putting events after) ->
  events_queue (run suite_id (replicate (length events) (Step i)) s)
  = events_queue s ++ events
  /\ workers (run suite_id (replicate (length events) (Step i)) s) !! i
     = Some (Putting [] after)
  /\ producer (run suite_id (replicate (length events) (Step i)) s)
     = producer s
  /\ dispatched (run suite_id (replicate (length events) (Step i)) s)
     = dispatched s.
Proof.
  induction events as [|event events IH]; intros s Hw.
  - simpl. by rewrite app_nil_r.
  - simpl replicate. rewrite run_cons. simpl act. unfold worker_task.
    rewrite Hw.
    destruct (IH (set_worker i (Putting events after) (put event s)))
      as (Hq & Hw' & Hp & Hd).
    { apply set_worker_same. simpl. by apply lookup_lt_Some in Hw. }
    rewrite Hq, Hw', Hp, Hd. simpl. by rewrite <- app_assoc.
Qed.

Lemma may_pull_enter suite_id id result :
  may_pull (Some (enter suite_id id result)) = 0.
Proof.
  destruct result as [operation|error]; simpl; [done|].
  by destruct (on_error suite_id id error).
Qed.

(** With the flag set, the pulls made plus the pulls that may still be
    made never grow. *)
Lemma act_pulls suite_id a s i :
  is_stopped s = true ->
  pulls i (dispatched (act suite_id a s))
    + may_pull (workers (act suite_id a s) !! i)
  <= pulls i (dispatched s) + may_pull (workers s !! i).
Proof.
  intros Hs. destruct a as [j|j|]; simpl; [| |done].
  - unfold worker_task, pull, finish. rewrite Hs.
    destruct (decide (i = j)) as [->|Hij].
    + destruct (workers s !! j) as [w|] eqn:Hw; [|by rewrite Hw].
      assert (Hj : j < length (workers s)) by by apply lookup_lt_Some in Hw.
      destruct w as [| |[|event events] [|[| |]]|test| |]; simpl;
        rewrite ?list_lookup_insert_eq by done; simpl; try lia;
        try (rewrite Hw; simpl; lia).
      * destruct (producer s) as [|result ahead]; simpl.
        -- rewrite list_lookup_insert_eq by done. simpl. lia.
        -- rewrite list_lookup_insert_eq by done. rewrite may_pull_enter.
           unfold pulls. rewrite List.filter_app, length_app. simpl.
           rewrite Nat.eqb_refl. simpl. lia.
      * destruct (test true) as [event rest|[|[| |]]]; simpl;
          rewrite list_lookup_insert_eq by done; simpl; lia.
    + destruct (workers s !! j) as [[| |[|event events] [|[| |]]|test| |]|];
        simpl; rewrite ?list_lookup_insert_ne by done; try lia.
      * destruct (producer s) as [|result ahead]; simpl.
        -- rewrite list_lookup_insert_ne by done. lia.
        -- rewrite list_lookup_insert_ne by done. unfold pulls.
           rewrite List.filter_app, length_app. simpl.
           destruct (Nat.eqb_spec j i); [congruence|]. simpl. lia.
      * destruct (test true) as [event rest|[|[| |]]]; simpl;
          rewrite list_lookup_insert_ne by done; lia.
  - unfold interrupt.
    destruct (decide (i = j)) as [->|Hij].
    + destruct (workers s !! j) as [w|] eqn:Hw; [|by rewrite Hw].
      assert (Hj : j < length (workers s)) by by apply lookup_lt_Some in Hw.
      destruct w; simpl; rewrite ?list_lookup_insert_eq by done; simpl;
        try lia; rewrite Hw; simpl; lia.
    + destruct (workers s !! j) as [[| | | | |]|]; simpl;
        rewrite ?list_lookup_insert_ne by done; lia.
Qed.

Lemma run_pulls suite_id schedule i :
  forall s,
  is_stopped s = true ->
  pulls i (dispatched (run suite_id schedule s))
    + may_pull (workers (run suite_id schedule s) !! i)
  <= pulls i (dispatched s) + may_pull (workers s !! i).
Proof.
  induction schedule as [|a schedule IH]; intros s Hs; [done|].
  rewrite run_cons.
  etransitivity; [apply IH; by apply act_is_stopped|].
  by apply act_pulls.
Qed.

(** A worker that has left [worker_task] does nothing more. *)
Lemma run_returned suite_id schedule i :
  forall s w,
  workers s !! i = Some w ->
  running w = false ->
  Forall (fun a => a = Step i \/ a = Signal i) schedule ->
  run suite_id schedule s = s.
Proof.
  induction schedule as [|a schedule IH]; intros s w Hw Hr Hs; [done|].
  apply Forall_cons in Hs as [Ha Hs]. rewrite run_cons.
  assert (act suite_id a s = s) as ->.
  { destruct Ha as [-> | ->]; simpl.
    - unfold worker_task. rewrite Hw. by destruct w.
    - unfold interrupt. rewrite Hw. by destruct w. }
  by apply (IH s w).
Qed.

(** Under every schedule the operations pulled so far, in the order of
    the pulls, followed by those still ahead of the cursor, are the
    operations the pool had: no operation is pulled twice, none is
    skipped. *)
Lemma act_dispatched suite_id a s :
  map snd (dispatched (act suite_id a s)) ++ producer (act suite_id a s)
  = map snd (dispatched s) ++ producer s.
Proof.
  destruct a as [i|i|]; simpl; [| |done].
  - unfold worker_task, pull, finish.
    destruct (workers s !! i) as [[| |[|event events] [|[| |]]|test| |]|];
      simpl; try done.
    + destruct (producer s) as [|result ahead] eqn:Hp; simpl.
      * by rewrite Hp.
      * by rewrite map_app, <- app_assoc.
    + by destruct (test (is_stopped s)) as [event rest|[|[| |]]].
  - unfold interrupt. by destruct (workers s !! i) as [[| | | | |]|].
Qed.

Lemma run_dispatched suite_id schedule :
  forall s,
  map snd (dispatched (run suite_id schedule s))
  ++ producer (run suite_id schedule s)
  = map snd (dispatched s) ++ producer s.
Proof.
  induction schedule as [|a schedule IH]; intros s; [done|].
  by rewrite run_cons, IH, act_dispatched.
Qed.

(** A worker about to pull that runs alone takes the schema error that
    comes next and puts all its events. *)
Lemma run_item suite_id i s error ahead events after :
  workers s !! i = Some Pulling ->
  producer s = Err error :: ahead ->
  on_error suite_id (next_uuid s) error = (events, after) ->
  events_queue (run suite_id (replicate (S (length events)) (Step i)) s)
  = events_queue s ++ events
  /\ workers (run suite_id (replicate (S (length events)) (Step i)) s) !! i
     = Some (Putting [] after)
  /\ producer (run suite_id (replicate (S (length events)) (Step i)) s)
     = ahead
  /\ dispatched (run suite_id (replicate (S (length events)) (Step i)) s)
     = dispatched s ++ [(i, Err error)].
Proof.
  intros Hw Hp Hh. simpl replicate. rewrite run_cons. simpl act.
  unfold worker_task, pull. rewrite Hw, Hp. simpl. rewrite Hh.
  match goal with |- context [run _ _ ?s1] =>
    destruct (run_putting suite_id i after events s1) as (Hq & Hw' & Hp' & Hd)
  end.
  { simpl. apply list_lookup_insert_eq. by apply lookup_lt_Some in Hw. }
  by rewrite Hq, Hw', Hp', Hd.
Qed.

Lemma run_item_back suite_id i s error ahead events :
  workers s !! i = Some Pulling ->
  producer s = Err error :: ahead ->
  on_error suite_id (next_uuid s) error = (events, Returns) ->
  events_queue (run suite_id (replicate (S (S (length events))) (Step i)) s)
  = events_queue s ++ events
  /\ workers (run suite_id (replicate (S (S (length events))) (Step i)) s)
       !! i = Some Checking.
Proof.
  intros Hw Hp Hh.
  destruct (run_item suite_id i s error ahead events Returns Hw Hp Hh)
    as (Hq & Hw' & _ & _).
  replace (replicate (S (S (length events))) (Step i))
    with (replicate (S (length events)) (Step i) ++ [Step i])
    by (by rewrite <- replicate_S_end).
  rewrite run_app.
  set (s1 := run suite_id (replicate (S (length events)) (Step i)) s) in *.
  simpl. unfold worker_task. rewrite Hw'. simpl. rewrite Hq.
  split; [done|]. apply list_lookup_insert_eq. by apply lookup_lt_Some in Hw'.
Qed.

(** *** Schema errors (C2) *)

(** C2, amended.  A worker that pulls a schema error whose method is
    known puts exactly three events, in this order, before it is back at
    the top of its loop: ScenarioStarted, NonFatalError related to the
    operation, ScenarioFinished with status ERROR carrying an empty
    recorder marked final.  When the method is not known (and the full
    path is), it puts exactly one event: a NonFatalError not related to
    an operation, labelled with the full path. *)
Theorem schema_error_scenario suite_id i (s : Engine) error ahead :
  workers s !! i = Some Pulling ->
  producer s = Err error :: ahead ->
  (truthy (method error) = true ->
   events_queue (run suite_id (replicate 5 (Step i)) s)
   = events_queue s
     ++ [ScenarioStarted (next_uuid s)
           (upper (format (method error)) +:+ " "
            +:+ format (full_path error)) UNIT_TESTING suite_id;
         NonFatalError error UNIT_TESTING
           (upper (format (method error)) +:+ " "
            +:+ format (full_path error)) true;
         ScenarioFinished (next_uuid s) suite_id UNIT_TESTING ERROR
           (new_recorder "Error") 0%float None true]
   /\ workers (run suite_id (replicate 5 (Step i)) s) !! i = Some Checking)
  /\ (truthy (method error) = false ->
      forall path, full_path error = Some path ->
      events_queue (run suite_id (replicate 3 (Step i)) s)
      = events_queue s ++ [NonFatalError error UNIT_TESTING path false]
      /\ workers (run suite_id (replicate 3 (Step i)) s) !! i
         = Some Checking).
Proof.
  intros Hw Hp. split.
  - intros Hm.
    apply (run_item_back suite_id i s error ahead
             [ScenarioStarted (next_uuid s)
                (upper (format (method error)) +:+ " "
                 +:+ format (full_path error)) UNIT_TESTING suite_id;
              NonFatalError error UNIT_TESTING
                (upper (format (method error)) +:+ " "
                 +:+ format (full_path error)) true;
              ScenarioFinished (next_uuid s) suite_id UNIT_TESTING ERROR
                (new_recorder "Error") 0%float None true] Hw Hp).
    unfold on_error. by rewrite Hm.
  - intros Hm path Hpath.
    apply (run_item_back suite_id i s error ahead
             [NonFatalError error UNIT_TESTING path false] Hw Hp).
    unfold on_error. by rewrite Hm, Hpath.
Qed.

(** *** Further properties of the pool *)

(** The events of the operations a worker handles one after the other,
    the first with the id [id]; the steps this takes it, from the top of its
    loop until it has returned; and whether each handling returns. *)
Fixpoint handled (suite_id id : UUID) (operations : list Result)
    : list Event :=
  match operations with
  | [] => []
  | result :: operations =>
      fst (handle suite_id id result) ++ handled suite_id (S id) operations
  end.

Fixpoint steps (suite_id id : UUID) (operations : list Result) : nat :=
  match operations with
  | [] => 2
  | result :: operations =>
      3 + length (fst (handle suite_id id result))
      + steps suite_id (S id) operations
  end.

Fixpoint returns (suite_id id : UUID) (operations : list Result) : bool :=
  match operations with
  | [] => true
  | result :: operations =>
      match snd (handle suite_id id result) with
      | Returns => returns suite_id (S id) operations
      | Raises _ => false
      end
  end.

Lemma act_queue suite_id a s :
  exists new, events_queue (act suite_id a s) = events_queue s ++ new.
Proof.
  destruct a as [i|i|]; simpl.
  - unfold worker_task, pull, finish.
    destruct (workers s !! i) as [[| |[|event events] [|[| |]]|test| |]|];
      simpl; try (by exists []; rewrite app_nil_r); try (by eexists).
    + destruct (producer s) as [|result ahead]; simpl;
        exists []; by rewrite app_nil_r.
    + destruct (test (is_stopped s)) as [event rest|[|[| |]]]; simpl;
        try (by exists []; rewrite app_nil_r); by eexists.
  - unfold interrupt.
    destruct (workers s !! i) as [[| | | | |]|]; simpl;
      try (by exists []; rewrite app_nil_r); by eexists.
  - exists []. by rewrite app_nil_r.
Qed.

Lemma act_keeps_flag suite_id a s :
  a <> Stop -> is_stopped (act suite_id a s) = is_stopped s.
Proof.
  intros Ha. destruct a as [i|i|]; simpl; [| |done].
  - unfold worker_task, pull, finish.
    destruct (workers s !! i) as [[| |[|event events] [|[| |]]|test| |]|];
      simpl; try done.
    + by destruct (producer s) as [|result ahead].
    + by destruct (test (is_stopped s)) as [event rest|[|[| |]]].
  - unfold interrupt. by destruct (workers s !! i) as [[| | | | |]|].
Qed.

Lemma act_stopped_idle suite_id a s :
  is_stopped s = true ->
  Forall (fun w => w <> Pulling) (workers s) ->
  Forall (fun w => w <> Pulling) (workers (act suite_id a s))
  /\ producer (act suite_id a s) = producer s
  /\ dispatched (act suite_id a s) = dispatched s.
Proof.
  intros Hs Hw. destruct a as [i|i|]; simpl; [| |done].
  - unfold worker_task, finish. rewrite Hs.
    destruct (workers s !! i) as [w|] eqn:Hi; [|done].
    destruct w as [| |[|event events] [|[| |]]|test| |]; simpl;
      try (split; [by apply Forall_insert|done]); try done.
    + by apply (Forall_lookup_1 _ _ _ _ Hw) in Hi.
    + destruct (test true) as [event rest|[|[| |]]]; simpl;
        (split; [by apply Forall_insert|done]).
  - unfold interrupt.
    destruct (workers s !! i) as [[| | | | |]|]; simpl;
      try (split; [by apply Forall_insert|done]); done.
Qed.

(** The state a worker that puts the events of an item leaves. *)
Lemma run_putting_state suite_id i after events :
  forall s,
  workers s !! i = Some (Putting events after) ->
  run suite_id (replicate (length events) (Step i)) s
  = {| is_stopped := is_stopped s; producer := producer s;
       events_queue := events_queue s ++ events;
       workers := <[i := Putting [] after]> (workers s);
       next_uuid := next_uuid s; dispatched := dispatched s |}.
Proof.
  induction events as [|event events IH]; intros s Hw.
  - simpl. rewrite app_nil_r, list_insert_id by done. by destruct s.
  - simpl replicate. rewrite run_cons. simpl act. unfold worker_task.
    rewrite Hw, IH.
    + simpl. by rewrite list_insert_insert_eq, <- app_assoc.
    + apply set_worker_same. simpl. by apply lookup_lt_Some in Hw.
Qed.

Lemma unroll_nil flag test after :
  unroll flag test = ([], after) -> test = Ends after.
Proof.
  destruct test as [event rest|after']; simpl.
  - by destruct (unroll flag (rest flag)).
  - by intros [= ->].
Qed.

Lemma unroll_cons flag test event events after :
  unroll flag test = (event :: events, after) ->
  exists rest,
    test = Yields event rest /\ unroll flag (rest flag) = (events, after).
Proof.
  destruct test as [event' rest|after']; simpl; [|done].
  destruct (unroll flag (rest flag)) as [events' after'] eqn:Hrest.
  intros [= -> -> ->]. by exists rest.
Qed.

(** The state a worker that runs alone leaves once the generator it
    resumes has yielded its events and returned, the flag not being set. *)
Lemma run_testing_state suite_id i events :
  forall test s,
  workers s !! i = Some (Testing test) ->
  is_stopped s = false ->
  unroll false (test false) = (events, Returns) ->
  run suite_id (replicate (S (length events)) (Step i)) s
  = {| is_stopped := false; producer := producer s;
       events_queue := events_queue s ++ events;
       workers := <[i := Checking]> (workers s);
       next_uuid := next_uuid s; dispatched := dispatched s |}.
Proof.
  induction events as [|event events IH]; intros test s Hw Hs Hu.
  - apply unroll_nil in Hu.
    change (run suite_id (replicate (S (length [])) (Step i)) s)
      with (worker_task suite_id i s).
    unfold worker_task. rewrite Hw, Hs, Hu. simpl.
    unfold set_worker. by rewrite Hs, app_nil_r.
  - apply unroll_cons in Hu as (rest & Hy & Hu).
    change (length (event :: events)) with (S (length events)).
    simpl replicate. rewrite run_cons. simpl act.
    assert (E : worker_task suite_id i s
                = set_worker i (Testing rest) (put event s)).
    { unfold worker_task. by rewrite Hw, Hs, Hy. }
    rewrite E, (IH rest); [|by rewrite set_worker_same;
                            [|simpl; apply lookup_lt_Some in Hw]|done|done].
    simpl. by rewrite list_insert_insert_eq, <- app_assoc.
Qed.

(** One turn of the loop of a worker that runs alone: check, pull, put
    the events, back to the top. *)
Lemma run_turn suite_id i s result ahead events :
  workers s !! i = Some Checking ->
  is_stopped s = false ->
  producer s = result :: ahead ->
  handle suite_id (next_uuid s) result = (events, Returns) ->
  run suite_id (replicate (3 + length events) (Step i)) s
  = {| is_stopped := false; producer := ahead;
       events_queue := events_queue s ++ events;
       workers := workers s;
       next_uuid := S (next_uuid s);
       dispatched := dispatched s ++ [(i, result)] |}.
Proof.
  intros Hw Hs Hp Hh.
  assert (Hi : i < length (workers s)) by by apply lookup_lt_Some in Hw.
  assert (E1 : worker_task suite_id i s = set_worker i Pulling s).
  { unfold worker_task. by rewrite Hw, Hs. }
  assert (E2 : worker_task suite_id i (set_worker i Pulling s)
               = {| is_stopped := false; producer := ahead;
                    events_queue := events_queue s;
                    workers := <[i := enter suite_id (next_uuid s) result]>
                                 (workers s);
                    next_uuid := S (next_uuid s);
                    dispatched := dispatched s ++ [(i, result)] |}).
  { unfold worker_task, pull. rewrite set_worker_same by done.
    simpl. rewrite Hp. simpl. by rewrite Hs, list_insert_insert_eq. }
  destruct result as [operation|error]; simpl in Hh, E2.
  - assert (Hsch : replicate (3 + length events) (Step i)
                   = [Step i; Step i]
                     ++ replicate (S (length events)) (Step i)) by done.
    rewrite Hsch, run_app.
    change (run suite_id [Step i; Step i] s)
      with (worker_task suite_id i (worker_task suite_id i s)).
    rewrite E1, E2,
      (run_testing_state suite_id i events (run_test operation suite_id));
      [|simpl; by apply list_lookup_insert_eq|done|done].
    simpl. by rewrite list_insert_insert_eq, list_insert_id.
  - rewrite Hh in E2.
    assert (Hsch : replicate (3 + length events) (Step i)
                   = [Step i; Step i]
                     ++ (replicate (length events) (Step i) ++ [Step i])).
    { simpl. by rewrite <- replicate_S_end. }
    rewrite Hsch, !run_app.
    change (run suite_id [Step i; Step i] s)
      with (worker_task suite_id i (worker_task suite_id i s)).
    rewrite E1, E2, (run_putting_state suite_id i Returns events);
      [|simpl; by apply list_lookup_insert_eq].
    simpl. unfold worker_task, finish. simpl.
    rewrite list_lookup_insert_eq by (by rewrite length_insert).
    unfold set_worker. simpl.
    by rewrite !list_insert_insert_eq, list_insert_id.
Qed.

(** *** The stop flag (C5) *)

(** How many steps worker [i] takes in [schedule]. *)
Fixpoint steps_taken (i : nat) (schedule : list Action) : nat :=
  match schedule with
  | [] => 0
  | Step j :: schedule =>
      (if Nat.eqb j i then 1 else 0) + steps_taken i schedule
  | _ :: schedule => steps_taken i schedule
  end.

(** The events the item a worker holds has still to give, the flag being
    set. *)
Definition pending (w : Worker) : list Event :=
  match w with
  | Putting events _ => events
  | Testing test => fst (unroll true (test true))
  | _ => []
  end.

(** What does not happen in worker [i] leaves it where it stands. *)
Lemma act_other suite_id a s i :
  a <> Step i -> a <> Signal i ->
  workers (act suite_id a s) !! i = workers s !! i.
Proof.
  intros Hstep Hsig. destruct a as [j|j|]; simpl; [| |done].
  - assert (Hij : j <> i) by congruence.
    unfold worker_task, pull, finish.
    destruct (workers s !! j) as [[| |[|event events] [|[| |]]|test| |]|];
      simpl; rewrite ?list_lookup_insert_ne by done; try done.
    + destruct (producer s) as [|result ahead]; simpl;
        by rewrite list_lookup_insert_ne.
    + destruct (test (is_stopped s)) as [event rest|[|[| |]]]; simpl;
        by rewrite list_lookup_insert_ne.
  - assert (Hij : j <> i) by congruence.
    unfold interrupt.
    destruct (workers s !! j) as [[| | | | |]|]; simpl;
      by rewrite ?list_lookup_insert_ne.
Qed.

Lemma run_queue suite_id schedule :
  forall s,
  exists new,
    events_queue (run suite_id schedule s) = events_queue s ++ new.
Proof.
  induction schedule as [|a schedule IH]; intros s.
  - exists []. by rewrite app_nil_r.
  - rewrite run_cons.
    destruct (IH (act suite_id a s)) as [new ->].
    destruct (act_queue suite_id a s) as [first ->].
    exists (first ++ new). by rewrite app_assoc.
Qed.

(** One step of a worker that holds an item with events to give puts the
    first of them, although the flag is set. *)
Lemma worker_task_pending suite_id i s w event events :
  is_stopped s = true ->
  workers s !! i = Some w ->
  pending w = event :: events ->
  exists w',
    worker_task suite_id i s = set_worker i w' (put event s)
    /\ pending w' = events.
Proof.
  intros Hs Hw Hp. unfold worker_task. rewrite Hw, Hs.
  destruct w as [| |events' after|test| |]; try done; simpl in Hp.
  - subst events'. by exists (Putting events after).
  - destruct (unroll true (test true)) as [events' after] eqn:Hu.
    simpl in Hp. subst events'.
    apply unroll_cons in Hu as (rest & -> & Hu).
    exists (Testing rest). simpl. by rewrite Hu.
Qed.

(** Once the flag is set, whatever else happens in the pool, a worker
    that is not interrupted and takes enough steps puts every event the
    item it holds has still to give, in order. *)
Lemma run_pending suite_id i schedule :
  forall s w,
  is_stopped s = true ->
  workers s !! i = Some w ->
  Forall (fun a => a <> Signal i) schedule ->
  length (pending w) <= steps_taken i schedule ->
  exists new,
    events_queue (run suite_id schedule s) = events_queue s ++ new
    /\ pending w `sublist_of` new.
Proof.
  induction schedule as [|a schedule IH]; intros s w Hs Hw Hsch Hlen.
  - exists []. split; [by rewrite app_nil_r|].
    simpl in Hlen. by destruct (pending w); [|simpl in Hlen; lia].
  - apply Forall_cons in Hsch as [Ha Hsch]. rewrite run_cons.
    destruct (pending w) as [|event events] eqn:Hp.
    { destruct (run_queue suite_id schedule (act suite_id a s)) as [new ->].
      destruct (act_queue suite_id a s) as [first ->].
      exists (first ++ new). split; [by rewrite app_assoc|].
      apply sublist_nil_l. }
    destruct (decide (a = Step i)) as [->|Hstep].
    + destruct (worker_task_pending suite_id i s w event events Hs Hw Hp)
        as (w' & Hstep & Hp').
      simpl act. rewrite Hstep.
      destruct (IH (set_worker i w' (put event s)) w') as (new & -> & Hsub).
      * done.
      * apply set_worker_same. simpl. by apply lookup_lt_Some in Hw.
      * done.
      * rewrite Hp'. simpl in Hlen. rewrite Nat.eqb_refl in Hlen. lia.
      * exists (event :: new). simpl. rewrite <- app_assoc. split; [done|].
        rewrite Hp' in Hsub. by apply sublist_skip.
    + destruct (IH (act suite_id a s) w) as (new & -> & Hsub).
      * by apply act_is_stopped.
      * by rewrite act_other.
      * done.
      * rewrite Hp. simpl. destruct a as [j|j|]; simpl in Hlen; try lia.
        destruct (Nat.eqb_spec j i); [congruence|]. simpl in Hlen. lia.
      * destruct (act_queue suite_id a s) as [first ->].
        exists (first ++ new). split; [by rewrite app_assoc|].
        rewrite Hp in Hsub. by apply sublist_inserts_l.
Qed.

(** C5, amended.  Once the stop flag is set:
    a worker that reads it at the top of its loop returns without pulling;
    under every schedule each worker pulls at most one more operation, and
    only if it stood between its check and its pull when the flag was set;
    a worker that has started the scenario of a schema error puts the
    events left of it, the ScenarioFinished included, under every schedule
    in which no KeyboardInterrupt is raised in it and it takes that many
    steps, whatever the other workers do; and a worker inside the loop over
    [run_test(...)] likewise puts every event the generator yields once it
    reads the flag set: which events these are is up to [run_test]. *)
Theorem stop_is_advisory suite_id (s : Engine) i :
  is_stopped s = true ->
  (workers s !! i = Some Checking ->
   worker_task suite_id i s = set_worker i Returned s)
  /\ (forall schedule,
        pulls i (dispatched (run suite_id schedule s))
        <= pulls i (dispatched s) + may_pull (workers s !! i))
  /\ (forall events after schedule,
        workers s !! i = Some (Putting events after) ->
        Forall (fun a => a <> Signal i) schedule ->
        length events <= steps_taken i schedule ->
        exists new,
          events_queue (run suite_id schedule s) = events_queue s ++ new
          /\ events `sublist_of` new)
  /\ (forall test schedule,
        workers s !! i = Some (Testing test) ->
        Forall (fun a => a <> Signal i) schedule ->
        length (fst (unroll true (test true))) <= steps_taken i schedule ->
        exists new,
          events_queue (run suite_id schedule s) = events_queue s ++ new
          /\ fst (unroll true (test true)) `sublist_of` new).
Proof.
  intros Hs. split; [|split; [|split]].
  - intros Hw. unfold worker_task. by rewrite Hw, Hs.
  - intros schedule.
    pose proof (run_pulls suite_id schedule i s Hs). lia.
  - intros events after schedule Hw.
    apply (run_pending suite_id i schedule s (Putting events after) Hs Hw).
  - intros test schedule Hw.
    apply (run_pending suite_id i schedule s (Testing test) Hs Hw).
Qed.

(** *** Exceptions (C7) *)

(** The condition line 147 asserts of a schema error without a method. *)
Definition located (result : Result) : Prop :=
  match result with
  | Ok _ => True
  | Err error => truthy (method error) = true \/ is_Some (full_path error)
  end.

(** A worker from which no exception but the KeyboardInterrupt, which
    [worker_task] catches, can come. *)
Definition safe (w : Worker) : Prop :=
  match w with
  | Putting _ (Raises e) => e = KeyboardInterrupt
  | Testing test => forall flag, contained (test flag)
  | Crashed _ => False
  | _ => True
  end.

Lemma on_error_located suite_id id error :
  located (Err error) ->
  exists events,
    on_error suite_id id error = (events, Returns)
    /\ count is_NonFatalError events = 1.
Proof.
  intros Herr. simpl in Herr. unfold on_error.
  destruct (truthy (method error)) eqn:Hm; [by eexists|].
  destruct Herr as [?|[path Hpath]]; [done|].
  rewrite Hpath. by eexists.
Qed.

Lemma enter_safe suite_id id result :
  (forall operation flag, contained (run_test operation suite_id flag)) ->
  located result -> safe (enter suite_id id result).
Proof.
  intros Hrun Hloc. destruct result as [operation|error]; simpl.
  - apply Hrun.
  - by destruct (on_error_located suite_id id error Hloc) as (events & -> & _).
Qed.

Lemma finish_safe i after s :
  match after with Returns => True | Raises e => e = KeyboardInterrupt end ->
  Forall safe (workers s) -> Forall safe (workers (finish i after s)).
Proof.
  intros Hafter Hw. destruct after as [|e]; simpl.
  - by apply Forall_insert.
  - subst e. simpl. by apply Forall_insert.
Qed.

(** No step, signal or stop makes a worker unsafe. *)
Lemma act_safe suite_id a s :
  (forall operation flag, contained (run_test operation suite_id flag)) ->
  Forall located (producer s) ->
  Forall safe (workers s) ->
  Forall located (producer (act suite_id a s))
  /\ Forall safe (workers (act suite_id a s)).
Proof.
  intros Hrun Hp Hw. destruct a as [i|i|]; simpl; [| |done].
  - unfold worker_task, pull.
    destruct (workers s !! i) as [w|] eqn:Hi; [|done].
    pose proof (Forall_lookup_1 _ _ _ _ Hw Hi) as Hsafe.
    destruct w as [| |[|event events] after|test| |]; try done.
    + split; [done|]. simpl. apply Forall_insert; [done|].
      by destruct (is_stopped s).
    + destruct (producer s) as [|result ahead] eqn:Hprod; simpl.
      * rewrite Hprod. split; [done|]. by apply Forall_insert.
      * apply Forall_cons in Hp as [Hresult Hahead]. split; [done|].
        apply Forall_insert; [done|]. by apply enter_safe.
    + split; [by destruct after as [|[| |]]|]. by apply finish_safe.
    + split; [done|]. simpl. by apply Forall_insert.
    + pose proof (Hsafe (is_stopped s)) as Hc.
      destruct (test (is_stopped s)) as [event rest|after].
      * split; [done|]. simpl. by apply Forall_insert.
      * split; [by destruct after as [|[| |]]|]. by apply finish_safe.
  - unfold interrupt.
    destruct (workers s !! i) as [[| | | | |]|]; simpl;
      try (split; [done|by apply Forall_insert]); done.
Qed.

Lemma run_safe suite_id schedule :
  (forall operation flag, contained (run_test operation suite_id flag)) ->
  forall s,
  Forall located (producer s) ->
  Forall safe (workers s) ->
  Forall safe (workers (run suite_id schedule s)).
Proof.
  intros Hrun. induction schedule as [|a schedule IH]; intros s Hp Hw; [done|].
  rewrite run_cons.
  destruct (act_safe suite_id a s Hrun Hp Hw) as [Hp' Hw'].
  by apply IH.
Qed.


(** X4.  [worker_task], lines 95-155.  A worker that runs alone and is not
    stopped handles every operation of the producer, in order, each with
    all its events, and then returns: the queue has grown by the events of
    the operations, the producer is exhausted, and the operations pulled
    are those it had. *)
Theorem worker_handles_all suite_id i operations :
  forall s,
  workers s !! i = Some Checking ->
  is_stopped s = false ->
  producer s = operations ->
  returns suite_id (next_uuid s) operations = true ->
  events_queue
    (run suite_id
       (replicate (steps suite_id (next_uuid s) operations) (Step i)) s)
  = events_queue s ++ handled suite_id (next_uuid s) operations
  /\ workers
       (run suite_id
          (replicate (steps suite_id (next_uuid s) operations) (Step i)) s)
     !! i = Some Returned
  /\ producer
       (run suite_id
          (replicate (steps suite_id (next_uuid s) operations) (Step i)) s)
     = []
  /\ map snd
       (dispatched
          (run suite_id
             (replicate (steps suite_id (next_uuid s) operations) (Step i))
             s))
     = map snd (dispatched s) ++ operations.
Proof.
  induction operations as [|result operations IH]; intros s Hw Hs Hp Hr.
  - assert (Hi : i < length (workers s)) by by apply lookup_lt_Some in Hw.
    assert (E1 : worker_task suite_id i s = set_worker i Pulling s).
    { unfold worker_task. by rewrite Hw, Hs. }
    assert (E2 : worker_task suite_id i (set_worker i Pulling s)
                 = set_worker i Returned (set_worker i Pulling s)).
    { unfold worker_task, pull, finish. rewrite set_worker_same by done.
      simpl. by rewrite Hp. }
    change (run suite_id (replicate (steps suite_id (next_uuid s) []) (Step i))
              s)
      with (worker_task suite_id i (worker_task suite_id i s)).
    rewrite E1, E2. simpl. rewrite !app_nil_r.
    split; [done|]. split; [|done].
    apply list_lookup_insert_eq. by rewrite length_insert.
  - destruct (handle suite_id (next_uuid s) result) as [events after] eqn:Hh.
    simpl in Hr. rewrite Hh in Hr. simpl in Hr.
    destruct after; [|done].
    assert (Hst : steps suite_id (next_uuid s) (result :: operations)
                  = (3 + length events)
                    + steps suite_id (S (next_uuid s)) operations).
    { simpl. by rewrite Hh. }
    assert (Hev : handled suite_id (next_uuid s) (result :: operations)
                  = events ++ handled suite_id (S (next_uuid s)) operations).
    { simpl. by rewrite Hh. }
    rewrite Hst, Hev, replicate_add, run_app.
    rewrite (run_turn suite_id i s result operations events Hw Hs Hp Hh).
    match goal with |- context [run _ _ ?s1] =>
      destruct (IH s1) as (Hq & Hw' & Hp' & Hd); try done
    end.
    simpl in Hq, Hw', Hp', Hd. rewrite Hq, Hw', Hp', Hd.
    rewrite map_app. simpl. by rewrite <- !app_assoc.
Qed.

(** X5.  [worker_task], lines 117-157.  Under every schedule the workers only
    append to the events queue: what has been put stays, in its order. *)
Theorem queue_only_grows suite_id schedule :
  forall s,
  exists new,
    events_queue (run suite_id schedule s) = events_queue s ++ new.
Proof.
  induction schedule as [|a schedule IH]; intros s.
  - exists []. by rewrite app_nil_r.
  - rewrite run_cons.
    destruct (IH (act suite_id a s)) as [new ->].
    destruct (act_queue suite_id a s) as [first ->].
    exists (first ++ new). by rewrite app_assoc.
Qed.

(** X6.  [worker_task], lines 95-157.  No step of a worker touches the stop
    flag: it is neither cleared nor set, not even by the worker that
    catches a KeyboardInterrupt, which only puts its Interrupted event. *)
Theorem workers_leave_flag suite_id schedule :
  forall s,
  Forall (fun a => a <> Stop) schedule ->
  is_stopped (run suite_id schedule s) = is_stopped s.
Proof.
  induction schedule as [|a schedule IH]; intros s Hsch; [done|].
  apply Forall_cons in Hsch as [Ha Hsch].
  by rewrite run_cons, IH, act_keeps_flag.
Qed.

(** X7.  [worker_task], lines 95-98.  When the flag is set while no worker
    stands between its check and its pull (before the pool starts, for
    one), no operation is taken from the producer any more, under any
    schedule. *)
Theorem stopped_pool_pulls_nothing suite_id schedule :
  forall s,
  is_stopped s = true ->
  Forall (fun w => w <> Pulling) (workers s) ->
  producer (run suite_id schedule s) = producer s
  /\ dispatched (run suite_id schedule s) = dispatched s.
Proof.
  induction schedule as [|a schedule IH]; intros s Hs Hw; [done|].
  rewrite run_cons.
  destruct (act_stopped_idle suite_id a s Hs Hw) as (Hw' & Hp & Hd).
  destruct (IH (act suite_id a s)) as [-> ->];
    [by apply act_is_stopped|done|done].
Qed.

(** [worker_task], lines 96-98.  Whatever the schedule, the signals and
    the stop flag, the operations pulled so far, in the order of the
    pulls, followed by those left in the producer, are the operations the
    pool was started with: no worker handles an operation another one has
    pulled, and none is lost. *)
Theorem operations_pulled_once suite_id workers_num operations schedule :
  map snd (dispatched (run suite_id schedule (start workers_num operations)))
  ++ producer (run suite_id schedule (start workers_num operations))
  = operations.
Proof.
  rewrite run_dispatched. reflexivity.
Qed.

End Workers.

Arguments Ok {Operation} operation.
Arguments Err {Operation} error.
Arguments is_stopped {Operation} e.
Arguments producer {Operation} e.
Arguments events_queue {Operation} e.
Arguments workers {Operation} e.
Arguments next_uuid {Operation} e.
Arguments dispatched {Operation} e.
Arguments set_worker {Operation} i w s.
Arguments put {Operation} event s.
Arguments handle {Operation} run_test suite_id id result.
Arguments enter {Operation} run_test suite_id id result.
Arguments pull {Operation} run_test suite_id i s.
Arguments finish {Operation} i after s.
Arguments worker_task {Operation} run_test suite_id i s.
Arguments interrupt {Operation} i s.
Arguments stop {Operation} s.
Arguments act {Operation} run_test suite_id a s.
Arguments run {Operation} run_test suite_id schedule s.
Arguments start {Operation} workers_num operations.
Arguments pulls {Operation} i log.
Arguments located {Operation} result.

(** *** Sample runs *)

(** Operations named by their label, each tested by one passing
    scenario. *)
Definition sample_run_test (operation : string) (suite_id : UUID)
    (_ : bool) : Test :=
  Yields (ScenarioStarted 100 operation UNIT_TESTING suite_id)
    (fun _ =>
       Yields (ScenarioFinished 100 suite_id UNIT_TESTING SUCCESS
                 (new_recorder operation) 0%float None true)
         (fun _ => Ends Returns)).

Definition known_method : SchemaError :=
  {| message := "Invalid definition"; method := Some "get";
     full_path := Some "/users" |}.

Definition unknown_method : SchemaError :=
  {| message := "Invalid path item"; method := None;
     full_path := Some "/users" |}.

(** A schema error without a method: the worker goes once round its loop
    (check, pull, put, back) and has put one event, not three. *)
Lemma unknown_method_one_event :
  events_queue
    (run sample_run_test 7 (replicate 4 (Step 0))
       (start 1 [Err unknown_method]))
  = [NonFatalError unknown_method UNIT_TESTING "/users" false]
  /\ workers
       (run sample_run_test 7 (replicate 4 (Step 0))
          (start 1 [Err unknown_method]))
     = [Checking]
  /\ producer
       (run sample_run_test 7 (replicate 4 (Step 0))
          (start 1 [Err unknown_method]))
     = [].
Proof. repeat split. Qed.

Lemma schema_error_scenario_witness :
  events_queue
    (run sample_run_test 7 (replicate 5 (Step 0))
       (run sample_run_test 7 [Step 0] (start 1 [Err known_method])))
  = [ScenarioStarted 0 "GET /users" UNIT_TESTING 7;
     NonFatalError known_method UNIT_TESTING "GET /users" true;
     ScenarioFinished 0 7 UNIT_TESTING ERROR (new_recorder "Error")
       0%float None true]
  /\ workers
       (run sample_run_test 7 (replicate 5 (Step 0))
          (run sample_run_test 7 [Step 0] (start 1 [Err known_method])))
     !! 0 = Some Checking.
Proof.
  exact (proj1 (schema_error_scenario string sample_run_test 7 0
                  (run sample_run_test 7 [Step 0]
                     (start 1 [Err known_method]))
                  known_method [] eq_refl eq_refl) eq_refl).
Defined.

(** A worker passes its check, the flag is set, and the worker then pulls
    an operation that nobody had pulled and starts its scenario; a
    KeyboardInterrupt raised in the worker then ends the scenario without
    its ScenarioFinished. *)
Lemma late_pull_starts_scenario :
  is_stopped
    (run sample_run_test 7 [Step 0; Stop] (start 1 [Err known_method]))
  = true
  /\ dispatched
       (run sample_run_test 7 [Step 0; Stop] (start 1 [Err known_method]))
     = []
  /\ dispatched
       (run sample_run_test 7 [Step 0; Stop; Step 0; Step 0]
          (start 1 [Err known_method]))
     = [(0, Err known_method)]
  /\ events_queue
       (run sample_run_test 7 [Step 0; Stop; Step 0; Step 0]
          (start 1 [Err known_method]))
     = [ScenarioStarted 0 "GET /users" UNIT_TESTING 7]
  /\ events_queue
       (run sample_run_test 7
          [Step 0; Stop; Step 0; Step 0; Signal 0; Step 0; Step 0]
          (start 1 [Err known_method]))
     = [ScenarioStarted 0 "GET /users" UNIT_TESTING 7;
        Interrupted UNIT_TESTING]
  /\ workers
       (run sample_run_test 7
          [Step 0; Stop; Step 0; Step 0; Signal 0; Step 0; Step 0]
          (start 1 [Err known_method]))
     = [Returned].
Proof. repeat split. Qed.

Lemma stop_is_advisory_witness :
  is_stopped
    (run sample_run_test 7 [Step 0; Stop; Step 0; Step 0]
       (start 2 [Err known_method; Ok "listUsers"]))
  = true
  /\ workers
       (run sample_run_test 7 [Step 0; Stop; Step 0; Step 0]
          (start 2 [Err known_method; Ok "listUsers"]))
     !! 0
     = Some (Putting
               [NonFatalError known_method UNIT_TESTING "GET /users" true;
                ScenarioFinished 0 7 UNIT_TESTING ERROR
                  (new_recorder "Error") 0%float None true]
               Returns)
  /\ pulls 0
       (dispatched
          (run sample_run_test 7
             [Step 1; Step 0; Signal 1; Stop; Step 0; Step 0; Step 0]
             (run sample_run_test 7 [Step 0; Stop; Step 0; Step 0]
                (start 2 [Err known_method; Ok "listUsers"]))))
     <= pulls 0
          (dispatched
             (run sample_run_test 7 [Step 0; Stop; Step 0; Step 0]
                (start 2 [Err known_method; Ok "listUsers"])))
        + 0
  /\ exists new,
       events_queue
         (run sample_run_test 7
            [Step 1; Step 0; Signal 1; Stop; Step 0; Step 0; Step 0]
            (run sample_run_test 7 [Step 0; Stop; Step 0; Step 0]
               (start 2 [Err known_method; Ok "listUsers"])))
       = [ScenarioStarted 0 "GET /users" UNIT_TESTING 7] ++ new
       /\ [NonFatalError known_method UNIT_TESTING "GET /users" true;
           ScenarioFinished 0 7 UNIT_TESTING ERROR
             (new_recorder "Error") 0%float None true]
          `sublist_of` new.
Proof.
  split; [reflexivity|]. split; [reflexivity|].
  pose proof (stop_is_advisory string sample_run_test 7
                (run sample_run_test 7 [Step 0; Stop; Step 0; Step 0]
                   (start 2 [Err known_method; Ok "listUsers"]))
                0 eq_refl) as (_ & Hpulls & Hput & _).
  split.
  - exact (Hpulls [Step 1; Step 0; Signal 1; Stop; Step 0; Step 0; Step 0]).
  - apply (Hput
             [NonFatalError known_method UNIT_TESTING "GET /users" true;
              ScenarioFinished 0 7 UNIT_TESTING ERROR
                (new_recorder "Error") 0%float None true]
             Returns
             [Step 1; Step 0; Signal 1; Stop; Step 0; Step 0; Step 0]).
    + reflexivity.
    + repeat constructor; discriminate.
    + simpl. lia.
Defined.


Arguments handled {Operation} run_test suite_id id operations.
Arguments steps {Operation} run_test suite_id id operations.
Arguments returns {Operation} run_test suite_id id operations.

Lemma worker_handles_all_witness :
  events_queue
    (run sample_run_test 7
       (replicate
          (steps sample_run_test 7 0 [Ok "listUsers"; Err known_method])
          (Step 0))
       (start 1 [Ok "listUsers"; Err known_method]))
  = [ScenarioStarted 100 "listUsers" UNIT_TESTING 7;
     ScenarioFinished 100 7 UNIT_TESTING SUCCESS (new_recorder "listUsers")
       0%float None true;
     ScenarioStarted 1 "GET /users" UNIT_TESTING 7;
     NonFatalError known_method UNIT_TESTING "GET /users" true;
     ScenarioFinished 1 7 UNIT_TESTING ERROR (new_recorder "Error")
       0%float None true]
  /\ workers
       (run sample_run_test 7
          (replicate
             (steps sample_run_test 7 0 [Ok "listUsers"; Err known_method])
             (Step 0))
          (start 1 [Ok "listUsers"; Err known_method]))
     !! 0 = Some Returned.
Proof.
  destruct (worker_handles_all string sample_run_test 7 0
              [Ok "listUsers"; Err known_method]
              (start 1 [Ok "listUsers"; Err known_method])
              eq_refl eq_refl eq_refl eq_refl) as (Hq & Hw & _ & _).
  split; [exact Hq|exact Hw].
Defined.

Lemma workers_leave_flag_witness :
  is_stopped
    (run sample_run_test 7 [Step 0; Signal 0; Step 1; Step 1; Signal 1]
       (start 2 [Ok "listUsers"; Err known_method]))
  = false.
Proof.
  apply (workers_leave_flag string sample_run_test 7
           [Step 0; Signal 0; Step 1; Step 1; Signal 1]
           (start 2 [Ok "listUsers"; Err known_method])).
  repeat constructor; discriminate.
Defined.

Lemma stopped_pool_pulls_nothing_witness :
  producer
    (run sample_run_test 7 [Step 0; Step 1; Signal 1; Step 0; Step 1]
       (stop (start 2 [Ok "listUsers"; Err known_method])))
  = [Ok "listUsers"; Err known_method]
  /\ dispatched
       (run sample_run_test 7 [Step 0; Step 1; Signal 1; Step 0; Step 1]
          (stop (start 2 [Ok "listUsers"; Err known_method])))
     = [].
Proof.
  apply (stopped_pool_pulls_nothing string sample_run_test 7
           [Step 0; Step 1; Signal 1; Step 0; Step 1]
           (stop (start 2 [Ok "listUsers"; Err known_method]))).
  - reflexivity.
  - repeat constructor; discriminate.
Defined.

End Pool.

(** ** The generation settings of an operation: [get_strategy_kwargs] *)

Module Strategy.

(** [str.lower()], on ASCII letters. *)
Definition lower_ascii (c : ascii) : ascii :=
  let n := nat_of_ascii c in
  if Nat.leb 65 n && Nat.leb n 90 then ascii_of_nat (n + 32) else c.

Fixpoint lower (s : string) : string :=
  match s with
  | EmptyString => EmptyString
  | String c s => String (lower_ascii c) (lower s)
  end.

Section Kwargs.

Variable Operation : Type.

(** [ctx.config], as far as [get_strategy_kwargs] reads it: the override,
    given by what its [for_operation] returns (a dict from a location to
    the values overridden there), and [ctx.config.network.headers]. *)
Record Config := {
  override : option (Operation -> gmap string (gmap string string));
  headers : option (gmap string string)
}.

(** [if entry: kwargs[location] = entry] *)
Definition copy (kwargs : gmap string (gmap string string))
    (item : string * gmap string string) : gmap string (gmap string string) :=
  if bool_decide (snd item <> ∅) then <[fst item := snd item]> kwargs
  else kwargs.

(** [key.lower() != "user-agent"] *)
Definition not_user_agent (item : string * string) : Prop :=
  lower (fst item) <> "user-agent".

Definition get_strategy_kwargs (ctx : Config) (operation : Operation)
    : gmap string (gmap string string) :=
  let kwargs : gmap string (gmap string string) := ∅ in
  let kwargs :=
    match override ctx with
    | Some for_operation =>
        foldl copy kwargs (map_to_list (for_operation operation))
    | None => kwargs
    end in
  match headers ctx with
  | Some network_headers =>
      if bool_decide (network_headers <> ∅) then
        <["headers" := filter not_user_agent network_headers]> kwargs
      else kwargs
  | None => kwargs
  end.

(** What the override contributes at a location: its entry there, unless
    that is empty. *)
Definition overridden (ctx : Config) (operation : Operation)
    (location : string) : option (gmap string string) :=
  match override ctx with
  | Some for_operation =>
      match for_operation operation !! location with
      | Some entry => if bool_decide (entry <> ∅) then Some entry else None
      | None => None
      end
  | None => None
  end.

(** *** Facts about the copy loop *)

Lemma copy_lookup (items : list (string * gmap string string)) :
  forall (kwargs : gmap string (gmap string string)) location,
  NoDup (items.*1) ->
  foldl copy kwargs items !! location
  = match (list_to_map items : gmap string (gmap string string)) !! location
    with
    | Some entry =>
        if bool_decide (entry <> ∅) then Some entry else kwargs !! location
    | None => kwargs !! location
    end.
Proof.
  induction items as [|[l e] items IH]; intros kwargs location Hnd; [done|].
  simpl in Hnd. apply NoDup_cons in Hnd as [Hl Hnd].
  simpl. rewrite IH by done.
  destruct (decide (l = location)) as [<-|Hne].
  - rewrite lookup_insert_eq.
    rewrite (not_elem_of_list_to_map_1 items l Hl).
    unfold copy. simpl. case_bool_decide; [|done].
    by rewrite lookup_insert_eq.
  - rewrite lookup_insert_ne by done.
    assert (Hcopy : copy kwargs (l, e) !! location = kwargs !! location).
    { unfold copy. simpl. case_bool_decide; [|done].
      by rewrite lookup_insert_ne. }
    by rewrite Hcopy.
Qed.

Lemma copied_lookup (entries : gmap string (gmap string string)) location :
  foldl copy ∅ (map_to_list entries) !! location
  = match entries !! location with
    | Some entry => if bool_decide (entry <> ∅) then Some entry else None
    | None => None
    end.
Proof.
  rewrite copy_lookup by apply NoDup_fst_map_to_list.
  rewrite list_to_map_to_list, lookup_empty. done.
Qed.

Lemma before_headers_lookup ctx operation location :
  match override ctx with
  | Some for_operation =>
      foldl copy ∅ (map_to_list (for_operation operation))
  | None => ∅
  end !! location = overridden ctx operation location.
Proof.
  unfold overridden. destruct (override ctx) as [for_operation|].
  - apply copied_lookup.
  - apply lookup_empty.
Qed.

(** X8.  [get_strategy_kwargs], lines 166-169.  When network headers are
    configured, the "headers" entry of the result is made of them alone,
    whatever the override says for that location: a header is passed on
    with its value exactly when its name is not "user-agent" in any
    letter case. *)
Theorem network_headers_sent ctx operation network_headers :
  headers ctx = Some network_headers ->
  network_headers <> ∅ ->
  exists sent,
    get_strategy_kwargs ctx operation !! "headers" = Some sent
    /\ forall key value,
         sent !! key = Some value
         <-> network_headers !! key = Some value
             /\ lower key <> "user-agent".
Proof.
  intros Hh Hne. unfold get_strategy_kwargs. rewrite Hh.
  rewrite bool_decide_eq_true_2 by done.
  exists (filter not_user_agent network_headers).
  split; [by rewrite lookup_insert_eq|].
  intros key value. by rewrite map_lookup_filter_Some.
Qed.

(** X9.  [get_strategy_kwargs], lines 161-165.  Every location other than
    "headers", and "headers" too when no network header is configured,
    carries what the override gives for the operation there, provided that
    is not empty; without an override, or with an empty entry, the
    location is absent from the result. *)
Theorem override_entries_kept ctx operation location :
  location <> "headers" \/ headers ctx = None \/ headers ctx = Some ∅ ->
  get_strategy_kwargs ctx operation !! location
  = overridden ctx operation location.
Proof.
  intros Hcase. unfold get_strategy_kwargs.
  destruct (headers ctx) as [network_headers|] eqn:Hh;
    [|apply before_headers_lookup].
  case_bool_decide as Hne; [|apply before_headers_lookup].
  destruct Hcase as [Hloc|[?|[= ->]]]; [|done|done].
  rewrite lookup_insert_ne by done. apply before_headers_lookup.
Qed.

(** X10.  [get_strategy_kwargs], lines 164-169.  An empty entry is never copied
    from the override; the result holds one only at "headers", and only
    when network headers are configured and every one of them is a
    user-agent header. *)
Theorem empty_entry_is_headers ctx operation location :
  get_strategy_kwargs ctx operation !! location = Some ∅ ->
  location = "headers"
  /\ exists network_headers,
       headers ctx = Some network_headers
       /\ network_headers <> ∅
       /\ forall key value,
            network_headers !! key = Some value ->
            lower key = "user-agent".
Proof.
  assert (Hov : overridden ctx operation location <> Some ∅).
  { unfold overridden. destruct (override ctx) as [for_operation|]; [|done].
    destruct (for_operation operation !! location) as [entry|]; [|done].
    case_bool_decide; congruence. }
  unfold get_strategy_kwargs.
  destruct (headers ctx) as [network_headers|] eqn:Hh;
    [|by rewrite before_headers_lookup].
  case_bool_decide as Hne; [|by rewrite before_headers_lookup].
  destruct (decide (location = "headers")) as [->|Hloc].
  - rewrite lookup_insert_eq. intros [= Hempty].
    split; [done|]. exists network_headers. split; [done|]. split; [done|].
    intros key value Hkey.
    destruct (decide (lower key = "user-agent")) as [|Hua]; [done|].
    assert (Hin : filter not_user_agent network_headers !! key = Some value)
      by by apply map_lookup_filter_Some.
    by rewrite Hempty, lookup_empty in Hin.
  - rewrite lookup_insert_ne by done. by rewrite before_headers_lookup.
Qed.

End Kwargs.

Arguments override {Operation} c.
Arguments headers {Operation} c.
Arguments get_strategy_kwargs {Operation} ctx operation.
Arguments overridden {Operation} ctx operation location.

(** A configuration that overrides the page of every operation and sets
    three network headers. *)
Definition sample_config : Config string :=
  {| override := Some (fun _ =>
       {[ "query" := {[ "page" := "1" ]};
          "headers" := {[ "X-Trace" := "on" ]};
          "cookies" := ∅ ]});
     headers := Some {[ "User-Agent" := "curl"; "Accept" := "text/html";
                        "USER-AGENT" := "wget" ]} |}.

(** A configuration whose only network header is a user-agent. *)
Definition agent_only : Config string :=
  {| override := None; headers := Some {[ "User-agent" := "curl" ]} |}.

Lemma network_headers_sent_witness :
  get_strategy_kwargs sample_config "listUsers" !! "headers"
  = Some {[ "Accept" := "text/html" ]}
  /\ exists sent,
       get_strategy_kwargs sample_config "listUsers" !! "headers" = Some sent
       /\ forall key value,
            sent !! key = Some value
            <-> ({[ "User-Agent" := "curl"; "Accept" := "text/html";
                    "USER-AGENT" := "wget" ]} : gmap string string) !! key
                = Some value
                /\ lower key <> "user-agent".
Proof.
  split; [vm_compute; reflexivity|].
  apply (network_headers_sent string sample_config "listUsers"
           {[ "User-Agent" := "curl"; "Accept" := "text/html";
              "USER-AGENT" := "wget" ]}).
  - reflexivity.
  - intros H. apply (f_equal (fun m : gmap string string => m !! "Accept")) in H.
    vm_compute in H. discriminate.
Defined.

Lemma override_entries_kept_witness :
  get_strategy_kwargs sample_config "listUsers" !! "query"
  = Some {[ "page" := "1" ]}
  /\ get_strategy_kwargs sample_config "listUsers" !! "cookies" = None.
Proof.
  split.
  - rewrite (override_entries_kept string sample_config "listUsers" "query")
      by (left; discriminate).
    vm_compute. reflexivity.
  - rewrite (override_entries_kept string sample_config "listUsers" "cookies")
      by (left; discriminate).
    vm_compute. reflexivity.
Defined.

Lemma empty_entry_is_headers_witness :
  get_strategy_kwargs agent_only "listUsers" !! "headers" = Some ∅
  /\ exists network_headers,
       headers agent_only = Some network_headers
       /\ network_headers <> ∅
       /\ forall key value,
            network_headers !! key = Some value ->
            lower key = "user-agent".
Proof.
  split; [vm_compute; reflexivity|].
  apply (empty_entry_is_headers string agent_only "listUsers" "headers").
  vm_compute. reflexivity.
Defined.

End Strategy.

(** ** The resource path matcher *)

Module ResourcePaths.

(** A bound value: a string or an integer. *)
Inductive Value :=
| Str (s : string)
| Int (z : Z).

(** The string form of a bound value: an integer in decimal notation. *)
Definition str (v : Value) : string :=
  match v with
  | Str s => s
  | Int z => NilZero.string_of_int (Z.to_int z)
  end.

(** A path template and the values bound to its variables. *)
Record ResourcePath := {
  value : string;
  variables : gmap string Value
}.

(** Modelled from the spec: 4.5, step 1.  Strip one trailing "/", if
    there is one. *)
Fixpoint normalize (path : string) : string :=
  match path with
  | EmptyString => EmptyString
  | String c EmptyString =>
      if Ascii.eqb c "/" then EmptyString else path
  | String c rest => String c (normalize rest)
  end.

(** Modelled from the spec: 4.5, step 2.  The segments of a path are
    what stands between its "/". *)
Fixpoint segments (path : string) : list string :=
  match path with
  | EmptyString => [EmptyString]
  | String c rest =>
      if Ascii.eqb c "/" then EmptyString :: segments rest
      else
        match segments rest with
        | segment :: others => String c segment :: others
        | [] => [String c EmptyString]
        end
  end.

(** [s] without its last character, when that is [c]. *)
Fixpoint without_last (c : ascii) (s : string) : option string :=
  match s with
  | EmptyString => None
  | String d EmptyString =>
      if Ascii.eqb d c then Some EmptyString else None
  | String d rest =>
      match without_last c rest with
      | Some rest => Some (String d rest)
      | None => None
      end
  end.

(** The variable a placeholder segment "{name}" names. *)
Definition placeholder (segment : string) : option string :=
  match segment with
  | String c rest => if Ascii.eqb c "{" then without_last "}" rest else None
  | EmptyString => None
  end.

(** Modelled from the spec: 4.5, step 2.  A placeholder segment is
    replaced by the string form of the value bound to its variable; there
    is no result when none is bound. *)
Definition substitute (variables : gmap string Value) (segment : string)
    : option string :=
  match placeholder segment with
  | Some name => str <$> variables !! name
  | None => Some segment
  end.

(** The concrete segment sequence of a resource path. *)
Definition resolve (path : ResourcePath) : option (list string) :=
  mapM (substitute (variables path)) (segments (normalize (value path))).

(** Modelled from the spec: 4.5, step 3.  Two segments are equal when
    they match exactly, or one is the other with a trailing "s" added. *)
Definition same_segment (a b : string) : bool :=
  String.eqb a b || String.eqb a (b +:+ "s") || String.eqb b (a +:+ "s").

(** Modelled from the spec: 4.5, step 4, on the resolved sequences.  A
    longer left side is no prefix; otherwise every segment of the left
    side is compared with the one at its position in the right side, and
    the first mismatch decides. *)
Fixpoint matches (lhs rhs : list string) : bool :=
  match lhs, rhs with
  | [], _ => true
  | _ :: _, [] => false
  | a :: lhs, b :: rhs => if same_segment a b then matches lhs rhs else false
  end.

(** Modelled from the spec: the function [_is_prefix_operation] of
    [schemathesis/specs/openapi/checks.py] is not among the sources; this
    follows the four steps of section 4.5. *)
Definition is_prefix_operation (lhs rhs : ResourcePath) : option bool :=
  match resolve lhs, resolve rhs with
  | Some lhs_segments, Some rhs_segments =>
      Some (Nat.leb (length lhs_segments) (length rhs_segments)
            && matches lhs_segments rhs_segments)
  | _, _ => None
  end.

(** [ResourcePath(path, vars)], with the variables as a list of bindings. *)
Definition path (value : string) (bindings : list (string * Value))
    : ResourcePath :=
  {| value := value; variables := list_to_map bindings |}.

(** The table of [test_is_prefix_operation]: left path and bindings,
    right path and bindings, expected result. *)
Definition test_rows
    : list (string * list (string * Value) * string
            * list (string * Value) * bool) :=
  [("/users/123", [], "/users/123", [], true);
   ("/users/123", [], "/users/456", [], false);
   ("/users/{id}", [("id", Str "123")],
    "/users/{user_id}", [("user_id", Str "123")], true);
   ("/users/{id}", [("id", Str "123")],
    "/users/{user_id}", [("user_id", Str "456")], false);
   ("/user/{id}", [("id", Str "123")], "/users/{id}", [("id", Str "123")], true);
   ("/user/{id}", [("id", Str "123")], "/users/{id}", [("id", Str "456")], false);
   ("/users/{id}", [("id", Str "123")], "/user/{id}", [("id", Str "123")], true);
   ("/users/{id}", [("id", Str "123")], "/user/{id}", [("id", Str "456")], false);
   ("/users/{id}/", [("id", Str "123")], "/users/{id}", [("id", Str "123")], true);
   ("/users/{id}/", [("id", Str "123")], "/users/{id}", [("id", Str "456")], false);
   ("/users/{id}", [("id", Str "123")], "/users/{id}/", [("id", Str "123")], true);
   ("/users/{id}", [("id", Str "123")], "/users/{id}/", [("id", Str "456")], false);
   ("/users/", [], "/users", [], true);
   ("/users", [], "/users/", [], true);
   ("", [], "", [], true);
   ("", [], "/", [], true);
   ("/", [], "", [], true);
   ("/users/{id}", [("id", Str "123")],
    "/products/{id}", [("id", Str "456")], false);
   ("/users/{id}", [("id", Str "123")],
    "/users/{name}", [("name", Str "John")], false);
   ("/users/{id}", [("id", Str "123")],
    "/users/{id}/details", [("id", Str "123")], true);
   ("/users/{id}", [("id", Str "123")],
    "/users/{id}/details", [("id", Str "456")], false);
   ("/users/{id}", [("id", Str "123")],
    "/users/{id}/{name}", [("id", Str "123"); ("name", Str "John")], true);
   ("/users/{id}", [("id", Str "123")],
    "/users/{id}/{name}/{email}",
    [("id", Str "123"); ("name", Str "John");
     ("email", Str "john@example.com")], true);
   ("/users/{id}", [("id", Str "123")],
    "/users/{id}/details", [("id", Int 123)], true);
   ("/users/{id}", [("id", Int 123)],
    "/users/{id}/details", [("id", Str "123")], true);
   ("/users/{id}", [("id", Str "123")],
    "/users/{id}/details/view", [("id", Str "123")], true);
   ("/users/{id}", [("id", Str "123")],
    "/users/{id}/details/view", [("id", Str "456")], false);
   ("/users/{id}", [("id", Str "123")],
    "/users/{id}/details/view/edit", [("id", Str "123")], true);
   ("/users/{id}", [("id", Str "123")],
    "/users/{id}/details/view/edit", [("id", Str "456")], false);
   ("/one/two/three/four/{id}", [("id", Str "123")],
    "/users/{id}/details", [("id", Str "456")], false)].

(** *** Facts about the matcher *)

Lemma same_segment_spec a b :
  same_segment a b = true <-> a = b \/ a = b +:+ "s" \/ b = a +:+ "s".
Proof.
  unfold same_segment. rewrite !orb_true_iff, !String.eqb_eq. tauto.
Qed.

Lemma matches_spec lhs :
  forall rhs,
  matches lhs rhs = true <->
  length lhs <= length rhs
  /\ forall i a, lhs !! i = Some a ->
       exists b, rhs !! i = Some b /\ same_segment a b = true.
Proof.
  induction lhs as [|a lhs IH]; intros rhs; simpl.
  - split; [|done]. intros _. split; [lia|]. intros i a Hi.
    by rewrite lookup_nil in Hi.
  - destruct rhs as [|b rhs]; simpl.
    + split; [done|]. intros [H _]. lia.
    + destruct (same_segment a b) eqn:Hab.
      * rewrite IH. split.
        -- intros [Hlen Hall]. split; [lia|].
           intros [|i] c Hi; simpl in *; [|by apply Hall].
           injection Hi as <-. by exists b.
        -- intros [Hlen Hall]. split; [lia|].
           intros i c Hi. by apply (Hall (S i)).
      * split; [done|]. intros [_ Hall].
        destruct (Hall 0 a eq_refl) as (b' & [= <-] & Hab').
        congruence.
Qed.

(** Stripping takes exactly one trailing "/" away. *)
Lemma normalize_strips_one p : normalize (p +:+ "/") = p.
Proof.
  induction p as [|c p IH]; [done|].
  simpl. rewrite IH. by destruct p.
Qed.

(** The table of the test suite agrees with the matcher. *)
Example test_is_prefix_operation :
  map (fun '(l, lv, r, rv, _) => is_prefix_operation (path l lv) (path r rv))
    test_rows
  = map (fun '(_, _, _, _, expected) => Some expected) test_rows.
Proof. vm_compute. reflexivity. Qed.

(** *** The steps of section 4.5, in its words *)

(** [stripped] is [path] without one trailing "/", if it has one. *)
Definition strips (path stripped : string) : Prop :=
  path = stripped +:+ "/"
  \/ (path = stripped /\ forall start, path <> start +:+ "/").

(** [parts] are the segments of [path]: joined by "/" they give the path,
    and no "/" is left in any of them. *)
Definition splits (path : string) (parts : list string) : Prop :=
  parts <> []
  /\ String.concat "/" parts = path
  /\ Forall (fun part => ~ In "/"%char (list_ascii_of_string part)) parts.

(** [concrete] is what [segment] stands for: the string form of the value
    bound to its variable when it is a placeholder "{name}", an integer in
    decimal notation; the segment itself when it is none. *)
Definition stands_for (variables : gmap string Value)
    (segment concrete : string) : Prop :=
  (exists name v,
     segment = "{" +:+ name +:+ "}"
     /\ variables !! name = Some v
     /\ concrete = match v with
                   | Str s => s
                   | Int z => NilZero.string_of_int (Z.to_int z)
                   end)
  \/ ((forall name, segment <> "{" +:+ name +:+ "}") /\ concrete = segment).

(** [concrete] is the segment sequence of [path]: stripped, split,
    substituted. *)
Definition resolves (path : ResourcePath) (concrete : list string) : Prop :=
  exists stripped parts,
    strips (value path) stripped
    /\ splits stripped parts
    /\ Forall2 (stands_for (variables path)) parts concrete.

(** A path without a trailing "/" is left as it is. *)
Lemma normalize_keeps p :
  (forall start, p <> start +:+ "/") -> normalize p = p.
Proof.
  induction p as [|c p IH]; intros Hp; [done|].
  destruct p as [|d p].
  - simpl. destruct (Ascii.eqb_spec c "/") as [->|Hc]; [|done].
    by destruct (Hp "").
  - change (normalize (String c (String d p)))
      with (String c (normalize (String d p))).
    rewrite IH; [done|]. intros start Hstart.
    apply (Hp (String c start)). simpl. by rewrite Hstart.
Qed.

Lemma normalize_strips p stripped : strips p stripped -> normalize p = stripped.
Proof.
  intros [->|[-> Hp]]; [apply normalize_strips_one|by apply normalize_keeps].
Qed.

Lemma segments_whole part :
  ~ In "/"%char (list_ascii_of_string part) -> segments part = [part].
Proof.
  induction part as [|c part IH]; intros Hpart; [done|].
  simpl in *. destruct (Ascii.eqb_spec c "/") as [->|Hc]; [tauto|].
  rewrite IH; [done|tauto].
Qed.

Lemma segments_first part rest :
  ~ In "/"%char (list_ascii_of_string part) ->
  segments (part +:+ String "/" rest) = part :: segments rest.
Proof.
  induction part as [|c part IH]; intros Hpart; [done|].
  simpl in *. destruct (Ascii.eqb_spec c "/") as [->|Hc]; [tauto|].
  rewrite IH; [done|tauto].
Qed.

Lemma segments_splits p parts : splits p parts -> segments p = parts.
Proof.
  intros (Hne & <- & Hparts).
  induction Hparts as [|part parts Hpart Hparts IH]; [done|].
  destruct parts as [|next parts]; [by apply segments_whole|].
  change (String.concat "/" (part :: next :: parts))
    with (part +:+ String "/" (String.concat "/" (next :: parts))).
  by rewrite segments_first, IH.
Qed.

Lemma without_last_app c name :
  without_last c (name +:+ String c EmptyString) = Some name.
Proof.
  induction name as [|d name IH]; simpl.
  - by rewrite Ascii.eqb_refl.
  - rewrite IH. by destruct name.
Qed.

Lemma without_last_Some c s :
  forall name, without_last c s = Some name ->
  s = name +:+ String c EmptyString.
Proof.
  induction s as [|d s IH]; intros name; [done|].
  destruct s as [|e s].
  - simpl. destruct (Ascii.eqb_spec d c) as [->|Hd]; [|done].
    by intros [= <-].
  - change (without_last c (String d (String e s)))
      with (match without_last c (String e s) with
            | Some rest => Some (String d rest)
            | None => None
            end).
    destruct (without_last c (String e s)) as [rest|] eqn:Hrest; [|done].
    intros [= <-]. simpl. by rewrite (IH rest).
Qed.

Lemma placeholder_braces name :
  placeholder ("{" +:+ name +:+ "}") = Some name.
Proof. simpl. apply without_last_app. Qed.

Lemma placeholder_Some segment name :
  placeholder segment = Some name -> segment = "{" +:+ name +:+ "}".
Proof.
  destruct segment as [|c segment]; [done|]. simpl.
  destruct (Ascii.eqb_spec c "{") as [->|Hc]; [|done].
  intros Hname. by rewrite (without_last_Some _ _ _ Hname).
Qed.

Lemma substitute_stands_for variables segment concrete :
  stands_for variables segment concrete ->
  substitute variables segment = Some concrete.
Proof.
  unfold substitute.
  intros [(name & v & -> & Hv & ->)|[Hplain ->]].
  - rewrite placeholder_braces, Hv. by destruct v.
  - destruct (placeholder segment) as [name|] eqn:Hname; [|done].
    by apply placeholder_Some, Hplain in Hname.
Qed.

Lemma resolve_resolves path concrete :
  resolves path concrete -> resolve path = Some concrete.
Proof.
  intros (stripped & parts & Hstrip & Hsplit & Hsubst). unfold resolve.
  rewrite (normalize_strips _ _ Hstrip), (segments_splits _ _ Hsplit).
  apply mapM_Some. eapply Forall2_impl; [exact Hsubst|].
  apply substitute_stands_for.
Qed.

(** C8.  For two resource paths, with [ls] and [rs] the segment sequences
    obtained by stripping one trailing "/" from each, splitting at the "/",
    and substituting each placeholder by the string form of its bound
    value, an integer being its decimal representation: the left path is
    a prefix of the right one exactly when [ls] is not longer than [rs] and
    every segment of [ls] equals the segment of [rs] at its position,
    exactly or up to one trailing "s" added or removed; in every other
    case the answer is false. *)
Theorem is_prefix_operation_iff lhs rhs ls rs :
  resolves lhs ls ->
  resolves rhs rs ->
  let prefix :=
    length ls <= length rs
    /\ forall i a, ls !! i = Some a ->
         exists b, rs !! i = Some b
           /\ (a = b \/ a = b +:+ "s" \/ b = a +:+ "s") in
  (is_prefix_operation lhs rhs = Some true <-> prefix)
  /\ (is_prefix_operation lhs rhs = Some false <-> ~ prefix).
Proof.
  intros Hl%resolve_resolves Hr%resolve_resolves prefix.
  unfold is_prefix_operation. rewrite Hl, Hr.
  assert (Hm : matches ls rs = true <-> prefix).
  { rewrite matches_spec. unfold prefix.
    setoid_rewrite same_segment_spec. done. }
  assert (Hlen : matches ls rs = true -> Nat.leb (length ls) (length rs) = true).
  { intros H. apply Nat.leb_le. by apply matches_spec in H as [H _]. }
  destruct (matches ls rs) eqn:Hmatch.
  - rewrite Hlen by done. simpl. split; [tauto|].
    split; [done|]. intros Hn. destruct Hn. by apply Hm.
  - rewrite andb_false_r. split.
    + split; [done|]. intros Hp. apply Hm in Hp. done.
    + split; [|done]. intros _ Hp. apply Hm in Hp. done.
Qed.

(** A path that does not end with "/". *)
Ltac no_trailing_slash :=
  let start := fresh "start" in
  let H := fresh "H" in
  intros start H;
  repeat (destruct start as [|? start]; simpl in H;
          [discriminate H|injection H as _ H]);
  destruct start; discriminate H.

(** A segment that stands for itself, and one that stands for a value. *)
Ltac plain_segment :=
  right; split; [intros ?; discriminate|reflexivity].

Ltac bound_segment name v :=
  left; exists name, v;
  split; [reflexivity|split; [vm_compute; reflexivity|reflexivity]].

Ltac split_path :=
  split; [done|split; [reflexivity|]];
  repeat constructor; simpl; intuition discriminate.

Lemma is_prefix_operation_iff_witness :
  is_prefix_operation (path "/user/{id}/" [("id", Int 123)])
    (path "/users/{user_id}/details" [("user_id", Str "123")]) = Some true
  /\ is_prefix_operation (path "/users/{id}" [("id", Int 123)])
       (path "/users/{id}/details/" [("id", Str "456")]) = Some false.
Proof.
  assert (H1 : resolves (path "/user/{id}/" [("id", Int 123)])
                 [""; "user"; "123"]).
  { exists "/user/{id}", [""; "user"; "{id}"].
    split; [by left|]. split; [split_path|].
    constructor; [plain_segment|].
    constructor; [plain_segment|].
    constructor; [bound_segment "id" (Int 123)|constructor]. }
  assert (H2 : resolves
                 (path "/users/{user_id}/details" [("user_id", Str "123")])
                 [""; "users"; "123"; "details"]).
  { exists "/users/{user_id}/details", [""; "users"; "{user_id}"; "details"].
    split; [right; split; [done|no_trailing_slash]|]. split; [split_path|].
    constructor; [plain_segment|].
    constructor; [plain_segment|].
    constructor; [bound_segment "user_id" (Str "123")|].
    constructor; [plain_segment|constructor]. }
  assert (H3 : resolves (path "/users/{id}" [("id", Int 123)])
                 [""; "users"; "123"]).
  { exists "/users/{id}", [""; "users"; "{id}"].
    split; [right; split; [done|no_trailing_slash]|]. split; [split_path|].
    constructor; [plain_segment|].
    constructor; [plain_segment|].
    constructor; [bound_segment "id" (Int 123)|constructor]. }
  assert (H4 : resolves (path "/users/{id}/details/" [("id", Str "456")])
                 [""; "users"; "456"; "details"]).
  { exists "/users/{id}/details", [""; "users"; "{id}"; "details"].
    split; [by left|]. split; [split_path|].
    constructor; [plain_segment|].
    constructor; [plain_segment|].
    constructor; [bound_segment "id" (Str "456")|].
    constructor; [plain_segment|constructor]. }
  split.
  - apply (proj2 (proj1 (is_prefix_operation_iff _ _ _ _ H1 H2))).
    split; [simpl; lia|].
    intros [|[|[|i]]] a; simpl; intros [= <-]; eexists;
      (split; [reflexivity|]); auto.
  - apply (proj2 (proj2 (is_prefix_operation_iff _ _ _ _ H3 H4))).
    intros [_ H].
    destruct (H 2 "123" eq_refl) as (b & [= <-] & [?|[?|?]]); discriminate.
Defined.

End ResourcePaths.

(** ** The checks *)

Module Checks.

Inductive GenerationMode := POSITIVE | NEGATIVE.

(** What a failed check raises: its title, and the status it is about. *)
Record Failure := {
  title : string;
  status_code : nat
}.

(** *** Status classes *)

Definition digit (c : ascii) : option nat :=
  let n := nat_of_ascii c in
  if Nat.leb 48 n && Nat.leb n 57 then Some (n - 48) else None.

(** The character of a decimal digit. *)
Definition digit_char (d : nat) : ascii := ascii_of_nat (48 + d).

(** The number of placeholders of a string made of "X" only. *)
Fixpoint placeholders (s : string) : option nat :=
  match s with
  | EmptyString => Some 0
  | String c rest =>
      if Ascii.eqb c "X" then S <$> placeholders rest else None
  end.

(** An entry is read from the left: leading digits, then trailing "X"
    placeholders.  The result is the number the leading digits spell and
    the number of placeholders. *)
Fixpoint read_entry (entry : string) (leading : nat) : option (nat * nat) :=
  match entry with
  | EmptyString => Some (leading, 0)
  | String c rest =>
      match digit c with
      | Some d => read_entry rest (10 * leading + d)
      | None =>
          match placeholders entry with
          | Some k => Some (leading, k)
          | None => None
          end
      end
  end.

(** Modelled from the spec: 4.4, allow-list entries.  An entry of three
    characters matches the statuses that have its leading digits: an
    exact code matches itself only, a class every status obtained by
    filling the placeholders. *)
Definition matches_status (entry : string) (status : nat) : bool :=
  if Nat.eqb (String.length entry) 3 then
    match read_entry entry 0 with
    | Some (leading, k) =>
        Nat.leb (leading * 10 ^ k) status
        && Nat.ltb status ((leading + 1) * 10 ^ k)
    | None => false
    end
  else false.

(** [needle in hay] *)
Fixpoint mentions (needle hay : string) : bool :=
  String.prefix needle hay
  || match hay with
     | EmptyString => false
     | String _ rest => mentions needle rest
     end.

(** Modelled from the spec: the check [positive_data_acceptance] of
    [schemathesis/specs/openapi/checks.py] is not among the sources.  It
    applies only to cases generated in POSITIVE mode, and fails unless the
    response status matches an entry of the configured allow-list; the
    result is the failure raised, if any. *)
Definition positive_data_acceptance (allowed_statuses : list string)
    (status_code : nat) (mode : GenerationMode) : option Failure :=
  match mode with
  | NEGATIVE => None
  | POSITIVE =>
      if existsb (fun entry => matches_status entry status_code)
           allowed_statuses
      then None
      else Some {| title := "Rejected positive data";
                   status_code := status_code |}
  end.

(** The table of [test_positive_data_acceptance]: status, allow-list,
    whether the case is positive, whether the check raises. *)
Definition acceptance_rows : list (nat * list string * bool * bool) :=
  [(200, ["200"; "400"], true, false);
   (400, ["200"; "400"], true, false);
   (300, ["200"; "400"], true, true);
   (200, ["2XX"; "4XX"], true, false);
   (299, ["2XX"; "4XX"], true, false);
   (400, ["2XX"; "4XX"], true, false);
   (500, ["2XX"; "4XX"], true, true);
   (200, ["200"; "201"; "400"; "401"], true, false);
   (201, ["200"; "201"; "400"; "401"], true, false);
   (400, ["200"; "201"; "400"; "401"], true, false);
   (402, ["200"; "201"; "400"; "401"], true, true);
   (200, ["2XX"; "3XX"; "4XX"], true, false);
   (300, ["2XX"; "3XX"; "4XX"], true, false);
   (400, ["2XX"; "3XX"; "4XX"], true, false);
   (500, ["2XX"; "3XX"; "4XX"], true, true);
   (200, ["200"; "400"], false, false);
   (400, ["200"; "400"], false, false)].

(** Whether the check raises a failure about rejected positive data. *)
Definition raises_rejected (result : option Failure) : bool :=
  match result with
  | Some failure => mentions "Rejected positive data" (title failure)
  | None => false
  end.

(** *** Additional properties *)

Inductive ComponentKind := QUERY | PATH_PARAMETERS | HEADERS | COOKIES | BODY.

(** The values of a component, and the declared constraints they are
    held against: a type, a minimum, a maximum. *)
Inductive JsonValue :=
| Integer (z : Z)
| Text (s : string).

Inductive JsonType := INTEGER | STRING.

Record Schema := {
  type : option JsonType;
  minimum : option Z;
  maximum : option Z
}.

Definition has_type (t : JsonType) (v : JsonValue) : bool :=
  match t, v with
  | INTEGER, Integer _ | STRING, Text _ => true
  | _, _ => false
  end.

(** A value satisfies a declared schema when it violates none of its
    constraints; bounds constrain numbers only. *)
Definition satisfies (schema : Schema) (v : JsonValue) : bool :=
  match type schema with Some t => has_type t v | None => true end
  && match minimum schema, v with
     | Some m, Integer z => Z.leb m z
     | _, _ => true
     end
  && match maximum schema, v with
     | Some m, Integer z => Z.leb z m
     | _, _ => true
     end.

(** The component carries a key that is not declared. *)
Definition has_extra_keys (declared : gmap string Schema)
    (component : gmap string JsonValue) : bool :=
  existsb (fun kv => bool_decide (declared !! fst kv = None))
    (map_to_list component).

(** The component violates the constraint declared for one of its keys. *)
Definition violates_declared (declared : gmap string Schema)
    (component : gmap string JsonValue) : bool :=
  existsb (fun kv =>
             match declared !! fst kv with
             | Some schema => negb (satisfies schema (snd kv))
             | None => false
             end)
    (map_to_list component).

(** Modelled from the spec: 4.4.  The only deviation of the component is
    that it has extra keys: it has one, and violates no declared
    constraint. *)
Definition only_extra_keys (declared : gmap string Schema)
    (component : gmap string JsonValue) : bool :=
  has_extra_keys declared component
  && negb (violates_declared declared component).

(** A case, as far as this check reads it: the mode each generated
    component was generated in (none for a component that was not
    generated), the value of each component (empty when it has none), and
    the parameters its operation declares for each location. *)
Record Case := {
  components : ComponentKind -> option GenerationMode;
  values : ComponentKind -> gmap string JsonValue;
  parameters : ComponentKind -> gmap string Schema
}.

(** The non-body components. *)
Definition non_body : list ComponentKind :=
  [QUERY; HEADERS; COOKIES; PATH_PARAMETERS].

Definition is_negative (mode : option GenerationMode) : bool :=
  match mode with Some NEGATIVE => true | _ => false end.

(** The non-body components of the case that were generated in NEGATIVE
    mode. *)
Definition negated (case : Case) : list ComponentKind :=
  List.filter (fun kind => is_negative (components case kind)) non_body.

(** Modelled from the spec: the function
    [has_only_additional_properties_in_non_body_parameters] of
    [schemathesis/specs/openapi/checks.py] is not among the sources.
    True only if (a) at least one non-body component was negatively
    generated, and (b) the only violation of every negatively generated
    non-body component is that it has extra keys. *)
Definition has_only_additional_properties_in_non_body_parameters
    (case : Case) : bool :=
  match negated case with
  | [] => false
  | kinds =>
      forallb (fun kind =>
                 only_extra_keys (parameters case kind) (values case kind))
        kinds
  end.

(** The operation of [sample_schema]: an integer "key" of at least 5 in
    the query, an integer "X-Key" of at least 5 in the headers. *)
Definition at_least_5 : Schema :=
  {| type := Some INTEGER; minimum := Some 5%Z; maximum := None |}.

Definition sample_parameters (kind : ComponentKind) : gmap string Schema :=
  match kind with
  | QUERY => {[ "key" := at_least_5 ]}
  | HEADERS => {[ "X-Key" := at_least_5 ]}
  | _ => ∅
  end.

(** [operation.Case(query=..., headers=..., meta=build_metadata(query=...,
    body=...))] *)
Definition sample_case (query headers : list (string * JsonValue))
    (query_mode body_mode : option GenerationMode) : Case :=
  {| components := fun kind =>
       match kind with
       | QUERY => query_mode
       | BODY => body_mode
       | _ => None
       end;
     values := fun kind =>
       match kind with
       | QUERY => list_to_map query
       | HEADERS => list_to_map headers
       | _ => ∅
       end;
     parameters := sample_parameters |}.

(** The table of
    [test_has_only_additional_properties_in_non_body_parameters]. *)
Definition additional_rows : list (Case * bool) :=
  [(sample_case [] [] None None, false);
   (sample_case [] [] None (Some NEGATIVE), false);
   (sample_case [("key", Integer 1)] [] (Some NEGATIVE) None, false);
   (sample_case [("key", Integer 1)] [("X-Key", Integer 42)]
      (Some NEGATIVE) None, false);
   (sample_case [("key", Integer 5); ("unknown", Integer 3)] []
      (Some NEGATIVE) None, true);
   (sample_case [("key", Integer 5); ("unknown", Integer 3)]
      [("X-Key", Integer 42)] (Some NEGATIVE) None, true)].

(** *** Facts about status classes *)

Lemma digit_char_digit d : d < 10 -> digit (digit_char d) = Some d.
Proof.
  intros Hd. do 10 (destruct d as [|d]; [reflexivity|]). lia.
Qed.

Lemma read_digit d rest leading :
  d < 10 ->
  read_entry (String (digit_char d) rest) leading
  = read_entry rest (10 * leading + d).
Proof. intros Hd. cbn [read_entry]. by rewrite digit_char_digit. Qed.

Lemma matches_exact d1 d2 d3 status :
  d1 < 10 -> d2 < 10 -> d3 < 10 ->
  matches_status
    (String (digit_char d1) (String (digit_char d2)
       (String (digit_char d3) EmptyString))) status = true
  <-> status = 100 * d1 + 10 * d2 + d3.
Proof.
  intros H1 H2 H3. unfold matches_status. cbn [String.length Nat.eqb].
  rewrite !read_digit by done. cbn [read_entry].
  rewrite andb_true_iff, Nat.leb_le, Nat.ltb_lt.
  change (10 ^ 0) with 1. lia.
Qed.

Lemma matches_class_of_ten d1 d2 status :
  d1 < 10 -> d2 < 10 ->
  matches_status
    (String (digit_char d1) (String (digit_char d2) "X")) status = true
  <-> 100 * d1 + 10 * d2 <= status <= 100 * d1 + 10 * d2 + 9.
Proof.
  intros H1 H2. unfold matches_status. cbn [String.length Nat.eqb].
  rewrite !read_digit by done.
  change (read_entry "X" (10 * (10 * 0 + d1) + d2))
    with (Some (10 * (10 * 0 + d1) + d2, 1)).
  rewrite andb_true_iff, Nat.leb_le, Nat.ltb_lt.
  change (10 ^ 1) with 10. lia.
Qed.

Lemma matches_class_of_hundred d1 status :
  d1 < 10 ->
  matches_status (String (digit_char d1) "XX") status = true
  <-> 100 * d1 <= status <= 100 * d1 + 99.
Proof.
  intros H1. unfold matches_status. cbn [String.length Nat.eqb].
  rewrite !read_digit by done.
  change (read_entry "XX" (10 * 0 + d1)) with (Some (10 * 0 + d1, 2)).
  rewrite andb_true_iff, Nat.leb_le, Nat.ltb_lt.
  change (10 ^ 2) with 100. lia.
Qed.

(** The table of the test suite agrees with the check. *)
Example test_positive_data_acceptance :
  map (fun row : nat * list string * bool * bool =>
         let '(status, allowed, is_positive, _) := row in
         raises_rejected
           (positive_data_acceptance allowed status
              (if is_positive then POSITIVE else NEGATIVE)))
    acceptance_rows
  = map (fun row : nat * list string * bool * bool => snd row)
      acceptance_rows.
Proof. vm_compute. reflexivity. Qed.

(** C9.  [positive_data_acceptance] raises a failure, and then one whose
    title mentions rejected positive data, exactly when the case was
    generated in POSITIVE mode and the response status matches no entry of
    the allow-list; for a NEGATIVE case it never raises.  An entry that is
    a three-digit code matches that status only; a class with one or two
    trailing "X" matches the statuses with its leading digits, so "2XX"
    matches 200 to 299. *)
Theorem positive_data_acceptance_iff allowed_statuses status mode :
  (raises_rejected (positive_data_acceptance allowed_statuses status mode)
   = true
   <-> mode = POSITIVE
       /\ forall entry, In entry allowed_statuses ->
            matches_status entry status = false)
  /\ (is_Some (positive_data_acceptance allowed_statuses status mode)
      <-> raises_rejected
            (positive_data_acceptance allowed_statuses status mode) = true)
  /\ (mode = NEGATIVE ->
      positive_data_acceptance allowed_statuses status mode = None)
  /\ (forall d1 d2 d3, d1 < 10 -> d2 < 10 -> d3 < 10 ->
      (matches_status
         (String (digit_char d1) (String (digit_char d2)
            (String (digit_char d3) EmptyString))) status = true
       <-> status = 100 * d1 + 10 * d2 + d3)
      /\ (matches_status
            (String (digit_char d1) (String (digit_char d2) "X")) status
          = true
          <-> 100 * d1 + 10 * d2 <= status <= 100 * d1 + 10 * d2 + 9)
      /\ (matches_status (String (digit_char d1) "XX") status = true
          <-> 100 * d1 <= status <= 100 * d1 + 99))
  /\ (matches_status "2XX" status = true <-> 200 <= status <= 299).
Proof.
  assert (Hnone : existsb (fun entry => matches_status entry status)
                    allowed_statuses = false
                  <-> forall entry, In entry allowed_statuses ->
                        matches_status entry status = false).
  { rewrite <- not_true_iff_false, existsb_exists. split.
    - intros Hn entry Hin. apply not_true_iff_false. intros Hm.
      apply Hn. by exists entry.
    - intros Hall (entry & Hin & Hm). rewrite (Hall entry Hin) in Hm. done. }
  split; [|split; [|split; [|split]]].
  - unfold positive_data_acceptance. destruct mode.
    + destruct (existsb _ allowed_statuses) eqn:He; simpl.
      * split; [done|]. intros [_ Hall]. apply Hnone in Hall. congruence.
      * split; [|done]. intros _. split; [done|]. by apply Hnone.
    + simpl. split; [done|]. by intros [? _].
  - unfold positive_data_acceptance. destruct mode.
    + destruct (existsb _ allowed_statuses); simpl.
      * split; [by intros [? ?]|done].
      * split; [done|]. intros _. by eexists.
    + simpl. split; [by intros [? ?]|done].
  - by intros ->.
  - intros d1 d2 d3 H1 H2 H3. split; [|split].
    + by apply matches_exact.
    + by apply matches_class_of_ten.
    + by apply matches_class_of_hundred.
  - apply (matches_class_of_hundred 2 status). lia.
Qed.

(** *** Facts about additional properties *)

Lemma has_extra_keys_spec declared component :
  has_extra_keys declared component = true
  <-> exists key v, component !! key = Some v /\ declared !! key = None.
Proof.
  unfold has_extra_keys. rewrite existsb_exists. split.
  - intros ([key v] & Hin & Hd). exists key, v.
    apply list_elem_of_In, elem_of_map_to_list in Hin.
    apply bool_decide_eq_true in Hd. done.
  - intros (key & v & Hc & Hd). exists (key, v). split.
    + by apply list_elem_of_In, elem_of_map_to_list.
    + by apply bool_decide_eq_true.
Qed.

Lemma violates_declared_spec declared component :
  violates_declared declared component = false
  <-> forall key v schema,
        component !! key = Some v -> declared !! key = Some schema ->
        satisfies schema v = true.
Proof.
  unfold violates_declared.
  rewrite <- not_true_iff_false, existsb_exists. split.
  - intros Hn key v schema Hc Hd.
    destruct (satisfies schema v) eqn:Hs; [done|]. destruct Hn.
    exists (key, v). split.
    + by apply list_elem_of_In, elem_of_map_to_list.
    + simpl. by rewrite Hd, Hs.
  - intros Hall ([key v] & Hin & Hv). simpl in Hv.
    apply list_elem_of_In, elem_of_map_to_list in Hin.
    destruct (declared !! key) as [schema|] eqn:Hd; [|done].
    rewrite (Hall key v schema Hin Hd) in Hv. done.
Qed.

Lemma only_extra_keys_spec declared component :
  only_extra_keys declared component = true
  <-> (exists key v, component !! key = Some v /\ declared !! key = None)
      /\ (forall key v schema,
            component !! key = Some v -> declared !! key = Some schema ->
            satisfies schema v = true).
Proof.
  unfold only_extra_keys.
  by rewrite andb_true_iff, negb_true_iff, has_extra_keys_spec,
    violates_declared_spec.
Qed.

Lemma negated_spec case kind :
  In kind (negated case)
  <-> kind <> BODY /\ components case kind = Some NEGATIVE.
Proof.
  unfold negated. rewrite List.filter_In. unfold non_body, is_negative.
  split.
  - intros [Hin Hneg]. split.
    + intros ->. simpl in Hin. by intuition.
    + by destruct (components case kind) as [[|]|].
  - intros [Hb ->]. split; [|done]. destruct kind; simpl; tauto.
Qed.

(** What [satisfies] checks, constraint by constraint. *)
Lemma satisfies_spec schema v :
  satisfies schema v = true
  <-> (type schema = Some INTEGER -> exists z, v = Integer z)
      /\ (type schema = Some STRING -> exists s, v = Text s)
      /\ (forall m z, minimum schema = Some m -> v = Integer z -> (m <= z)%Z)
      /\ (forall m z, maximum schema = Some m -> v = Integer z -> (z <= m)%Z).
Proof.
  unfold satisfies. rewrite !andb_true_iff.
  destruct (type schema) as [[|]|], (minimum schema) as [lo|],
    (maximum schema) as [hi|], v as [z|s]; simpl;
    rewrite ?Z.leb_le; split.
  all: try (intros [[Ht Hlo] Hhi]; repeat split; intros; simplify_eq;
            by eauto).
  all: intros (Hint & Htext & Hlo & Hhi); repeat split; eauto;
       try (by destruct Hint); by destruct Htext.
Qed.

(** The table of the test suite agrees with the check. *)
Example test_has_only_additional_properties :
  map (fun row : Case * bool =>
         has_only_additional_properties_in_non_body_parameters (fst row))
    additional_rows
  = map snd additional_rows.
Proof. vm_compute. reflexivity. Qed.

(** C10.  The check returns true exactly when at least one non-body
    component of the case was generated in NEGATIVE mode and every such
    component deviates from its declared schema only by carrying
    undeclared keys: it has one, and the value of each declared key it
    carries has the declared type, is not below the declared minimum and
    not above the declared maximum.  Components generated in POSITIVE
    mode, or not generated, are ignored: two cases with the same negatively
    generated non-body components get the same answer. *)
Theorem only_additional_properties_iff case :
  (has_only_additional_properties_in_non_body_parameters case = true
   <-> (exists kind, kind <> BODY /\ components case kind = Some NEGATIVE)
       /\ (forall kind,
             kind <> BODY -> components case kind = Some NEGATIVE ->
             (exists key v,
                values case kind !! key = Some v
                /\ parameters case kind !! key = None)
             /\ (forall key v schema,
                   values case kind !! key = Some v ->
                   parameters case kind !! key = Some schema ->
                   (type schema = Some INTEGER -> exists z, v = Integer z)
                   /\ (type schema = Some STRING -> exists s, v = Text s)
                   /\ (forall m z, minimum schema = Some m ->
                         v = Integer z -> (m <= z)%Z)
                   /\ (forall m z, maximum schema = Some m ->
                         v = Integer z -> (z <= m)%Z))))
  /\ (forall other,
        (forall kind, kind <> BODY ->
           is_negative (components other kind)
           = is_negative (components case kind)) ->
        (forall kind, kind <> BODY ->
           components case kind = Some NEGATIVE ->
           values other kind = values case kind
           /\ parameters other kind = parameters case kind) ->
        has_only_additional_properties_in_non_body_parameters other
        = has_only_additional_properties_in_non_body_parameters case).
Proof.
  split.
  - unfold has_only_additional_properties_in_non_body_parameters.
    destruct (negated case) as [|kind0 kinds] eqn:Hneg.
    + split; [done|]. intros [(kind & Hk) _].
      apply negated_spec in Hk. rewrite Hneg in Hk. done.
    + rewrite forallb_forall. rewrite <- Hneg. split.
      * intros Hall. split.
        -- exists kind0. apply negated_spec. rewrite Hneg. by left.
        -- intros kind Hb Hk.
           assert (Hin : In kind (negated case)) by by apply negated_spec.
           apply Hall, only_extra_keys_spec in Hin as [Hextra Hdeclared].
           split; [done|]. intros key v schema Hv Hschema.
           by apply satisfies_spec, (Hdeclared key).
      * intros [_ Hall] kind Hk. apply negated_spec in Hk as [Hb Hk].
        destruct (Hall kind Hb Hk) as [Hextra Hdeclared].
        apply only_extra_keys_spec. split; [done|].
        intros key v schema Hv Hschema.
        by apply satisfies_spec, (Hdeclared key).
  - intros other Hmode Hsame.
    unfold has_only_additional_properties_in_non_body_parameters.
    assert (Hneg : negated other = negated case).
    { unfold negated, non_body. simpl.
      by rewrite !Hmode. }
    rewrite Hneg.
    destruct (negated case) as [|kind0 kinds] eqn:Hk; [done|].
    rewrite <- Hk. apply eq_true_iff_eq. rewrite !forallb_forall.
    split; intros Hall kind Hin; specialize (Hall kind Hin);
      apply negated_spec in Hin as [Hb Hn];
      destruct (Hsame kind Hb Hn) as [Hv Hp].
    + by rewrite <- Hv, <- Hp.
    + by rewrite Hv, Hp.
Qed.

(** The two cases of section 8: a negatively generated query with an
    undeclared key, its declared key at its minimum, and below it. *)
Lemma only_additional_properties_iff_witness :
  has_only_additional_properties_in_non_body_parameters
    (sample_case [("key", Integer 5); ("unknown", Integer 3)] []
       (Some NEGATIVE) None)
  = true
  /\ has_only_additional_properties_in_non_body_parameters
       (sample_case [("key", Integer 1); ("unknown", Integer 3)] []
          (Some NEGATIVE) None)
     = false.
Proof.
  split.
  - apply (proj1 (only_additional_properties_iff _)). split.
    + by exists QUERY.
    + intros kind Hbody Hneg. destruct kind; try done. split.
      * exists "unknown", (Integer 3). split; vm_compute; reflexivity.
      * intros key v schema Hv Hschema. simpl in Hv, Hschema.
        apply lookup_singleton_Some in Hschema as [<- <-].
        vm_compute in Hv. injection Hv as <-.
        repeat split; [by eexists|done| |done].
        intros m z [= <-] [= <-]. done.
  - apply not_true_is_false. intros Htrue.
    apply (proj1 (only_additional_properties_iff _)) in Htrue as [_ Hall].
    destruct (Hall QUERY) as [_ Hdeclared]; [done|done|].
    destruct (Hdeclared "key" (Integer 1) at_least_5) as (_ & _ & Hlo & _);
      [vm_compute; reflexivity|vm_compute; reflexivity|].
    specialize (Hlo 5%Z 1%Z eq_refl eq_refl). lia.
Defined.

End Checks.

(** ** The events of the service worker: [service/events.py] *)

Module Service.

(** The three event classes; an [Error] carries the exception. *)
Inductive Event :=
| Success
| Error (exception : string)
| Timeout.

(** [self.__class__.__name__] *)
Definition class_name (e : Event) : string :=
  match e with
  | Success => "Success"
  | Error _ => "Error"
  | Timeout => "Timeout"
  end.

(** The property [name]: the class name in capitals. *)
Definition name (e : Event) : string := Pool.upper (class_name e).

(** X11.  [Event.name], lines 10-12.  The name of an event tells its class: two
    events have the same name exactly when they are of the same class,
    whatever exception an Error carries; and upper-casing a name again
    changes nothing. *)
Theorem name_tells_class e1 e2 :
  (name e1 = name e2 <-> class_name e1 = class_name e2)
  /\ Pool.upper (name e1) = name e1.
Proof.
  split.
  - destruct e1, e2; split; (discriminate || reflexivity).
  - by destruct e1.
Qed.

End Service.

(** ** The metadata the tests of the checks build *)

Module TestSupport.
Import Checks.

(** [ComponentInfo(mode=...)] *)
Record ComponentInfo := { mode : GenerationMode }.

(** [GenerationInfo(time=..., mode=...)] *)
Record GenerationInfo := { time : float; generation_mode : GenerationMode }.

(** [PhaseInfo.generate()], [PhaseInfo.coverage(description=...)] *)
Inductive PhaseInfo :=
| generate
| coverage (description : string).

(** [CaseMetadata]; [components] is the dict of the components, in the
    order of their insertion. *)
Record CaseMetadata := {
  generation : GenerationInfo;
  components : list (ComponentKind * ComponentInfo);
  phase : PhaseInfo
}.

Definition same_kind (a b : ComponentKind) : bool :=
  match a, b with
  | QUERY, QUERY | PATH_PARAMETERS, PATH_PARAMETERS | HEADERS, HEADERS
  | COOKIES, COOKIES | BODY, BODY => true
  | _, _ => false
  end.

(** [components.get(kind)] *)
Fixpoint get (kind : ComponentKind)
    (components : list (ComponentKind * ComponentInfo))
    : option ComponentInfo :=
  match components with
  | [] => None
  | (k, info) :: components =>
      if same_kind k kind then Some info else get kind components
  end.

(** The comprehension of [build_metadata]: a component is entered when its
    value is not None. *)
Fixpoint given (pairs : list (ComponentKind * option GenerationMode))
    : list (ComponentKind * ComponentInfo) :=
  match pairs with
  | [] => []
  | (kind, Some value) :: pairs => (kind, {| mode := value |}) :: given pairs
  | (_, None) :: pairs => given pairs
  end.

(** [build_metadata]; a parameter left out is None, and the generation
    mode left out is POSITIVE.  The time is the double written 0.1. *)
Definition build_metadata
    (path_parameters query headers cookies body : option GenerationMode)
    (generation_mode : GenerationMode) : CaseMetadata :=
  {| generation := {| time := 0x1.999999999999ap-4%float; generation_mode := generation_mode |};
     components :=
       given [(QUERY, query); (PATH_PARAMETERS, path_parameters);
              (HEADERS, headers); (COOKIES, cookies); (BODY, body)];
     phase := generate |}.

(** The argument of [build_metadata] that stands for a component. *)
Definition argument
    (path_parameters query headers cookies body : option GenerationMode)
    (kind : ComponentKind) : option GenerationMode :=
  match kind with
  | QUERY => query
  | PATH_PARAMETERS => path_parameters
  | HEADERS => headers
  | COOKIES => cookies
  | BODY => body
  end.

(** X12.  [build_metadata], lines 85-105.  The metadata holds exactly the
    components that were given: looking a component up returns the mode
    given for it, and nothing for a component left out; no component is
    entered twice, and the overall mode is the one given. *)
Theorem build_metadata_components
    path_parameters query headers cookies body generation_mode kind :
  get kind
    (components
       (build_metadata path_parameters query headers cookies body
          generation_mode))
  = Build_ComponentInfo
    <$> argument path_parameters query headers cookies body kind
  /\ NoDup
       (map fst
          (components
             (build_metadata path_parameters query headers cookies body
                generation_mode)))
  /\ TestSupport.generation_mode
       (generation
          (build_metadata path_parameters query headers cookies body
             generation_mode))
     = generation_mode.
Proof.
  split; [|split; [|done]].
  - destruct path_parameters, query, headers, cookies, body, kind;
      reflexivity.
  - destruct path_parameters, query, headers, cookies, body; simpl;
      repeat (apply NoDup_cons; split;
              [rewrite ?elem_of_cons, elem_of_nil; intuition discriminate|]);
      apply NoDup_nil_2.
Qed.

End TestSupport.
